(** * SafeKey credential engine: envelope codec, format detection, vault
    orchestration, master-key manager, secure cache and pending-write queue.

  A shallow embedding of the TypeScript sources
  ([web-app/src/lib/credentials.ts], [walrus.ts], the master-key manager,
  the persistence manager and the dashboard queue poller; the input
  validators and the rate limiter of [security-utils.ts]; the extension
  heartbeat and the CORS check of the API server) together with the
  properties stated about them.

  Strings are sequences of characters with codes below 256. *)

From Stdlib Require Import Strings.Byte Strings.Ascii.
From stdpp Require Import base option list strings pretty gmap.

Set Default Proof Using "Type".

(** ** Typed arrays *)

(** A [Uint8Array] is a fixed-length sequence of bytes.  Element stores
  reduce the stored number modulo 256, stores outside the array are
  ignored, [set] raises a [RangeError] when the source does not fit and
  [slice] clamps its bounds to the array. *)
Module Uint8Array.

Definition u8 (n : nat) : byte :=
  default x00 (Byte.of_nat (n mod 256)).

(** [new Uint8Array(n)] *)
Definition alloc (n : nat) : list byte := replicate n x00.

(** [a[i] = n] *)
Definition store (a : list byte) (i n : nat) : list byte := <[i := u8 n]> a.

(** [a.set(src, off)]; [None] stands for the [RangeError]. *)
Definition set_from (a src : list byte) (off : nat) : option (list byte) :=
  if decide (off + length src ≤ length a)
  then Some (take off a ++ src ++ drop (off + length src) a)
  else None.

(** [a.slice(b, e)] for [0 <= b <= e] *)
Definition slice (a : list byte) (b e : nat) : list byte :=
  take (e - b) (drop b a).

(** [a.fill(0)] *)
Definition fill0 (a : list byte) : list byte := replicate (length a) x00.

End Uint8Array.

(** ** Envelope codec *)

Module Envelope.
Import Uint8Array.

(** The blob layout written by [saveCredential]:
    [[sessionNonceLen (1 byte)] [sessionNonce] [ivLen (1 byte)] [iv] [ciphertext]]. *)
Definition encode (sessionNonceBytes entryNonce encryptedData : list byte)
  : option (list byte) :=
  let ivLength := length entryNonce in
  let snLength := length sessionNonceBytes in
  let blobData := alloc (1 + snLength + 1 + ivLength + length encryptedData) in
  let offset := 0 in
  let blobData := store blobData offset snLength in
  let offset := offset + 1 in
  blobData ← set_from blobData sessionNonceBytes offset;
  let offset := offset + snLength in
  let blobData := store blobData offset ivLength in
  let offset := offset + 1 in
  blobData ← set_from blobData entryNonce offset;
  let offset := offset + ivLength in
  set_from blobData encryptedData offset.

(** Why the read loop of [getCredential] leaves a blob out.  The first three
    are the [console.warn] branches; [ReadOutOfBounds] marks an element read
    at an index outside the buffer (JavaScript would yield [undefined]). *)
Inductive skip :=
| BlobTooShort
| TooShortForSessionNonce
| TooShortForIV
| ReadOutOfBounds.

Record fields := Fields {
  sessionNonceBytes : list byte;
  entryNonce : list byte;
  encryptedDataBytes : list byte
}.

(** The unpacking done for each blob in [getCredential] and
    [getCredentialByDomainHash]. *)
Definition decode (blobData : list byte) : skip + fields :=
  if decide (length blobData < 3) then inl BlobTooShort else
  let offset := 0 in
  match blobData !! offset with
  | None => inl ReadOutOfBounds
  | Some snByte =>
    let snLen := Byte.to_nat snByte in
    let offset := offset + 1 in
    if decide (length blobData < 1 + snLen + 1) then inl TooShortForSessionNonce else
    let sn := slice blobData offset (offset + snLen) in
    let offset := offset + snLen in
    match blobData !! offset with
    | None => inl ReadOutOfBounds
    | Some ivByte =>
      let ivLength := Byte.to_nat ivByte in
      let offset := offset + 1 in
      if decide (length blobData < offset + ivLength) then inl TooShortForIV else
      let iv := slice blobData offset (offset + ivLength) in
      let offset := offset + ivLength in
      let ct := slice blobData offset (length blobData) in
      inr (Fields sn iv ct)
    end
  end.

(** The header lengths a buffer declares, where the buffer is long enough
    to hold them. *)
Definition declared_nonce_len (blobData : list byte) : option nat :=
  Byte.to_nat <$> blobData !! 0.

Definition declared_iv_len (blobData : list byte) : option nat :=
  n ← declared_nonce_len blobData; Byte.to_nat <$> blobData !! (1 + n).

(** A buffer is truncated when it is shorter than the two header bytes plus
    the nonce and IV lengths it declares. *)
Definition truncated (blobData : list byte) : bool :=
  match declared_nonce_len blobData with
  | None => true
  | Some n =>
    match declared_iv_len blobData with
    | None => true
    | Some i => bool_decide (length blobData < 2 + n + i)
    end
  end.

(** Packing the three fields and unpacking the result. *)
Definition roundtrip (sn iv ct : list byte) : option (skip + fields) :=
  decode <$> encode sn iv ct.

End Envelope.

(** ** JSON values and the JavaScript operations applied to them *)

Module Json.

(** The result of [JSON.parse].  An object is its list of members; a parsed
    object has each key once. *)
#[warnings="-register-all"]
Inductive value :=
| JNull
| JBool (b : bool)
| JNumber (n : Z)
| JString (s : string)
| JArray (xs : list value)
| JObject (members : list (string * value)).

(** [Array.isArray(v)] *)
Definition isArray (v : value) : bool :=
  match v with JArray _ => true | _ => false end.

(** [typeof x === 'string' && x.length > 0] *)
Definition nonempty_string (x : value) : option string :=
  match x with
  | JString s => if decide (s = EmptyString) then None else Some s
  | _ => None
  end.

(** Member lookup in an object. *)
Fixpoint assoc (k : string) (members : list (string * value)) : option value :=
  match members with
  | [] => None
  | (k', v) :: rest => if decide (k = k') then Some v else assoc k rest
  end.

(** Property access [v.k] on a parsed value, for a key that is not one of the
    built-in properties of strings and arrays: [None] is the [TypeError]
    raised on [null], [Some None] is [undefined]. *)
Definition get (v : value) (k : string) : option (option value) :=
  match v with
  | JNull => None
  | JObject members => Some (assoc k members)
  | _ => Some None
  end.

(** [!x || typeof x !== 'string'] fails exactly on non-empty strings. *)
Definition required_string (x : option value) : option string :=
  x ≫= nonempty_string.

(** [parsed.every(x => typeof x === 'string' && x.length > 0)] together with
    the strings themselves. *)
Definition every_nonempty_string (xs : list value) : option (list string) :=
  mapM nonempty_string xs.

End Json.

(** [s.split(sep)] for a one-character separator. *)
Fixpoint split_on (sep : Ascii.ascii) (s : string) : list string :=
  match s with
  | EmptyString => [EmptyString]
  | String a s' =>
    if decide (a = sep) then EmptyString :: split_on sep s'
    else match split_on sep s' with
         | x :: xs => String a x :: xs
         | [] => [String a EmptyString]
         end
  end.

(** ** What the vault code takes from its platform

    The crypto module ([./crypto]) is imported by the vault code but kept
    abstract here, and [JSON], [TextEncoder]/[TextDecoder], [btoa]/[atob] are
    built-ins; they are the fields of this class.  A [None] result stands for a raised exception.
    [encrypt] draws a random IV, which the model passes as [entropy]. *)
Class Platform := {
  hashDomain : string → string → string;
  deriveKS : string → string → string;
  encrypt : string → string → nat → string;
  decrypt : string → string → option string;
  (** [btoa(String.fromCharCode(...bytes))] *)
  b64 : list byte → string;
  (** [Uint8Array.from(atob(s), c => c.charCodeAt(0))] *)
  unb64 : string → option (list byte);
  JSON_parse : string → option Json.value;
  JSON_stringify : Json.value → string;
  TextDecoder_decode : list byte → string;
  TextEncoder_encode : string → list byte;
}.

(** A call either returns or throws. *)
Inductive outcome (A : Type) :=
| Throws
| Returns (a : A).
Arguments Throws {A}.
Arguments Returns {A} a.

(** ** Ledger and blob store *)

(** The dynamic field kept on chain for one domain fingerprint. *)
Record Info := {
  data : list byte;
  entryNonce : list byte;
  sessionNonce : list byte
}.

(** The ledger (one vault per owner address, one record per fingerprint) and
    the Walrus blobs that can currently be retrieved. *)
Record World := {
  vaults : gmap string (gmap string Info);
  blobs : gmap string (list byte)
}.

Module Ledger.

(** Modelled from the spec: the vault module ([./vault]) is missing from the
    sources.  Section 6 gives the ledger contract: [createRecord(owner)],
    [recordExists], [readRecord] returning the record or not-found, and
    [writeRecord] as a caller-determined create-or-update with the two
    auxiliary nonce fields.  A vault is identified with its owner address and
    a record is keyed by the base64 text of the fingerprint. *)
Definition getUserVaultId (w : World) (address : string) : option string :=
  match vaults w !! address with
  | Some _ => Some address
  | None => None
  end.

(** Modelled from the spec: [createRecord(owner)] when the owner has no vault. *)
Definition getOrCreateVault (w : World) (address : string) : World * string :=
  match vaults w !! address with
  | Some _ => (w, address)
  | None => ({| vaults := <[address := ∅]> (vaults w); blobs := blobs w |}, address)
  end.

(** Modelled from the spec: [readRecord(recordId, fingerprint)]. *)
Definition getCredentialInfoFromDynamicField (w : World) (vaultId domainHash : string)
  : option Info :=
  vaults w !! vaultId ≫= λ v, v !! domainHash.

(** Modelled from the spec: [recordExists]. *)
Definition checkCredentialExists (w : World) (vaultId domainHash : string) : bool :=
  bool_decide (is_Some (getCredentialInfoFromDynamicField w vaultId domainHash)).

(** Modelled from the spec: [writeRecord], used for both [addCredential] and
    [updateCredential]. *)
Definition writeRecord (w : World) (vaultId domainHash : string) (i : Info) : World :=
  {| vaults := <[vaultId := <[domainHash := i]> (default ∅ (vaults w !! vaultId))]> (vaults w);
     blobs := blobs w |}.

Definition addCredential := writeRecord.
Definition updateCredential := writeRecord.

(** Modelled from the spec: [deleteRecord(recordId, fingerprint)]. *)
Definition deleteCredential (w : World) (vaultId domainHash : string) : World :=
  {| vaults := <[vaultId := delete domainHash (default ∅ (vaults w !! vaultId))]> (vaults w);
     blobs := blobs w |}.

End Ledger.

Module Walrus.

(** [storeBlob]: the upload either throws or yields the blob id under which
    the bytes become retrievable; [reply] is what the store answers.  When
    an upload relay is configured an answer without a blob id is turned into
    an exception; the SDK path hands the id on as it is. *)
Definition storeBlob (w : World) (encryptedData : list byte) (relay : bool)
    (reply : option string) : World * outcome string :=
  match reply with
  | None => (w, Throws)
  | Some blobId =>
    let w := {| vaults := vaults w; blobs := <[blobId := encryptedData]> (blobs w) |} in
    if relay && bool_decide (blobId = EmptyString) then (w, Throws)
    else (w, Returns blobId)
  end.

(** [Map.prototype.set]: a map keeps its keys in insertion order and a key
    that is set again keeps its place. *)
Fixpoint map_set {V} (m : list (string * V)) (k : string) (v : V) : list (string * V) :=
  match m with
  | [] => [(k, v)]
  | (k', v') :: rest =>
    if decide (k = k') then (k, v) :: rest else (k', v') :: map_set rest k v
  end.

(** [retrieveBlobs]: every id is fetched, a failed fetch is left out of the
    resulting map. *)
Definition retrieveBlobs (w : World) (blobIds : list string) : list (string * list byte) :=
  foldl (λ blobMap blobId,
           match blobs w !! blobId with
           | Some d => map_set blobMap blobId d
           | None => blobMap
           end) [] blobIds.

End Walrus.

(** ** Vault orchestration ([credentials.ts]) *)

Module Vault.
Import Json.

Record Credential := {
  domain : string;
  username : string;
  password : string
}.

(** What [getCredentialByDomainHash] returns: its [domain] is
    [credentialData.domain || 'unknown'], whatever value that is. *)
Record HashCredential := {
  hdomain : value;
  husername : string;
  hpassword : string
}.

(** The console messages that tell the outcomes of a read apart. *)
Inductive event :=
| LogNoVault
| LogNotExists
| LogInfoNull
| LogLegacyFallback
| LogNoBlobIds
| LogNoBlobsRetrieved
| WarnBlob (blobId : string) (r : Envelope.skip)
| WarnInvalidData (blobId : string)
| ErrorFailedToDecrypt (blobId : string)
| LogDecrypted (blobId : string)
| LogNoValidCredentials
| LogReturning (n : nat).

(** Truthiness of a parsed value. *)
Definition truthy (v : value) : bool :=
  match v with
  | JNull => false
  | JBool b => b
  | JNumber n => negb (n =? 0)%Z
  | JString s => if decide (s = EmptyString) then false else true
  | JArray _ | JObject _ => true
  end.

(** [credentialData.domain || 'unknown'] *)
Definition domain_or_unknown (credentialData : value) : value :=
  match get credentialData "domain" with
  | Some (Some d) => if truthy d then d else JString "unknown"
  | _ => JString "unknown"
  end.

(** The object literal [{ domain, username, password }] that is encrypted. *)
Definition credential_json (credential : Credential) : value :=
  JObject [("domain", JString (domain credential));
           ("username", JString (username credential));
           ("password", JString (password credential))].

(** What the randomness and the collaborators contribute to one save. *)
Record SaveEnv := {
  drawn_sessionNonce : string;
  entropy : nat;
  signer_available : bool;
  upload_relay : bool;
  walrus_reply : option string
}.

Section with_platform.
Context `{Platform}.

(** The [try] block that opens the format detection of both read functions:
    [None] when control reaches the [catch], because [JSON.parse] threw or
    because the parsed value is not an array of non-empty strings. *)
Definition parse_blob_ids (info : Info) : option (list string) :=
  let dataStr := TextDecoder_decode (data info) in
  match JSON_parse dataStr with
  | None => None
  | Some parsed =>
    match parsed with
    | JArray xs => every_nonempty_string xs
    | _ => None
    end
  end.

(** The two validity tests on a decrypted payload; [None] is the [TypeError]
    of a property access on [null], [Some None] a failed test. *)
Definition check_fields (credentialData : value) : option (option (string * string)) :=
  match get credentialData "username" with
  | None => None
  | Some u =>
    match required_string u with
    | None => Some None
    | Some username =>
      match get credentialData "password" with
      | None => None
      | Some p =>
        match required_string p with
        | None => Some None
        | Some password => Some (Some (username, password))
        end
      end
    end
  end.

(** The legacy decode path: the on-chain bytes are the ciphertext and the
    on-chain nonces give the session key and the IV.  Every failure on this
    path reaches the caller as an exception. *)
Definition open_legacy (KM : string) (info : Info) : outcome (value * string * string) :=
  let sessionNonceB64 := b64 (sessionNonce info) in
  let entryNonceB64 := b64 (entryNonce info) in
  let encryptedDataB64 := b64 (data info) in
  let KS := deriveKS KM sessionNonceB64 in
  let encryptedData := (entryNonceB64 ++ "." ++ encryptedDataB64)%string in
  match decrypt encryptedData KS with
  | None => Throws
  | Some decryptedData =>
    match JSON_parse decryptedData with
    | None => Throws
    | Some credentialData =>
      match check_fields credentialData with
      | Some (Some (username, password)) => Returns (credentialData, username, password)
      | _ => Throws
      end
    end
  end.

(** The body of the loop over the retrieved blobs. *)
Inductive blob_outcome :=
| Skipped (r : Envelope.skip)
| InvalidData
| Failed
| Decoded (credentialData : value) (username password : string).

Definition open_blob (KM : string) (blobData : list byte) : blob_outcome :=
  match Envelope.decode blobData with
  | inl r => Skipped r
  | inr f =>
    let sessionNonceB64 := b64 (Envelope.sessionNonceBytes f) in
    let KS := deriveKS KM sessionNonceB64 in
    let entryNonceB64 := b64 (Envelope.entryNonce f) in
    let encryptedDataB64 := b64 (Envelope.encryptedDataBytes f) in
    let encryptedData := (entryNonceB64 ++ "." ++ encryptedDataB64)%string in
    match decrypt encryptedData KS with
    | None => Failed
    | Some decryptedData =>
      match JSON_parse decryptedData with
      | None => Failed
      | Some credentialData =>
        match check_fields credentialData with
        | None => Failed
        | Some None => InvalidData
        | Some (Some (username, password)) => Decoded credentialData username password
        end
      end
    end
  end.

(** The credential a retrieved blob contributes to the result, if any, and
    the message it leaves in the console. *)
Definition blob_result {C} (mk : value → string → string → C) (KM : string)
    (entry : string * list byte) : option C :=
  match open_blob KM entry.2 with
  | Decoded credentialData username password => Some (mk credentialData username password)
  | _ => None
  end.

Definition blob_event (KM : string) (entry : string * list byte) : event :=
  match open_blob KM entry.2 with
  | Skipped r => WarnBlob entry.1 r
  | InvalidData => WarnInvalidData entry.1
  | Failed => ErrorFailedToDecrypt entry.1
  | Decoded _ _ _ => LogDecrypted entry.1
  end.

(** One iteration: a credential is pushed or a message is logged, and the
    loop goes on either way. *)
Definition read_blob {C} (mk : value → string → string → C) (KM : string)
    (acc : list C * list event) (entry : string * list byte) : list C * list event :=
  let '(credentials, log) := acc in
  let '(blobId, blobData) := entry in
  match open_blob KM blobData with
  | Skipped r => (credentials, log ++ [WarnBlob blobId r])
  | InvalidData => (credentials, log ++ [WarnInvalidData blobId])
  | Failed => (credentials, log ++ [ErrorFailedToDecrypt blobId])
  | Decoded credentialData username password =>
    (credentials ++ [mk credentialData username password], log ++ [LogDecrypted blobId])
  end.

(** The current-format path shared by both read functions. *)
Definition read_current {C} (mk : value → string → string → C) (w : World)
    (KM : string) (blobIds : list string) : outcome (option (list C)) * list event :=
  if decide (blobIds = []) then (Returns None, [LogNoBlobIds]) else
  let blobMap := Walrus.retrieveBlobs w blobIds in
  if decide (length blobMap = 0) then (Returns None, [LogNoBlobsRetrieved]) else
  let '(credentials, log) := foldl (read_blob mk KM) ([], []) blobMap in
  if decide (length credentials = 0)
  then (Returns None, log ++ [LogNoValidCredentials])
  else (Returns (Some credentials), log ++ [LogReturning (length credentials)]).

Definition getCredential (w : World) (domain KM address : string)
  : outcome (option (list Credential)) * list event :=
  let domainHashB64 := hashDomain domain KM in
  match Ledger.getUserVaultId w address with
  | None => (Returns None, [LogNoVault])
  | Some vaultId =>
    if decide (vaultId = EmptyString) then (Returns None, [LogNoVault]) else
    if negb (Ledger.checkCredentialExists w vaultId domainHashB64)
    then (Returns None, [LogNotExists]) else
    match Ledger.getCredentialInfoFromDynamicField w vaultId domainHashB64 with
    | None => (Returns None, [LogInfoNull])
    | Some info =>
      match parse_blob_ids info with
      | None =>
        match open_legacy KM info with
        | Throws => (Throws, [LogLegacyFallback])
        | Returns (_, username, password) =>
          (Returns (Some [Build_Credential domain username password]),
           [LogLegacyFallback])
        end
      | Some blobIds =>
        read_current (λ _ username password, Build_Credential domain username password)
          w KM blobIds
      end
    end
  end.

Definition getCredentialByDomainHash (w : World) (domainHashB64 KM address : string)
  : outcome (option (list HashCredential)) * list event :=
  match Ledger.getUserVaultId w address with
  | None => (Returns None, [LogNoVault])
  | Some vaultId =>
    if decide (vaultId = EmptyString) then (Returns None, [LogNoVault]) else
    if negb (Ledger.checkCredentialExists w vaultId domainHashB64)
    then (Returns None, [LogNotExists]) else
    match Ledger.getCredentialInfoFromDynamicField w vaultId domainHashB64 with
    | None => (Returns None, [LogInfoNull])
    | Some info =>
      match parse_blob_ids info with
      | None =>
        match open_legacy KM info with
        | Throws => (Throws, [LogLegacyFallback])
        | Returns (credentialData, username, password) =>
          (Returns (Some [Build_HashCredential (domain_or_unknown credentialData)
                            username password]),
           [LogLegacyFallback])
        end
      | Some blobIds =>
        read_current (λ credentialData username password,
                        Build_HashCredential (domain_or_unknown credentialData)
                          username password)
          w KM blobIds
      end
    end
  end.

(** The array of blob ids a save starts from: the parsed payload of the
    existing record when that is an array, and a fresh array otherwise
    (no record, a payload that is not JSON, or JSON that is not an array). *)
Definition existing_blob_ids (w : World) (exists_ : bool) (vaultId domainHashB64 : string)
  : list value :=
  if exists_ then
    match Ledger.getCredentialInfoFromDynamicField w vaultId domainHashB64 with
    | Some existingInfo =>
      let existingDataStr := TextDecoder_decode (data existingInfo) in
      match JSON_parse existingDataStr with
      | Some (JArray blobIds) => blobIds
      | Some _ => []
      | None => []
      end
    | None => []
    end
  else [].

Definition saveCredential (w : World) (credential : Credential) (KM address : string)
    (env : SaveEnv) : World * outcome unit :=
  let domainHashB64 := hashDomain (domain credential) KM in
  let '(w, vaultId) := Ledger.getOrCreateVault w address in
  let exists_ := Ledger.checkCredentialExists w vaultId domainHashB64 in
  let sessionNonce := drawn_sessionNonce env in
  match unb64 sessionNonce with
  | None => (w, Throws)
  | Some sessionNonceBytes =>
    let KS := deriveKS KM sessionNonce in
    let credentialData := JSON_stringify (credential_json credential) in
    let encryptedDataB64 := encrypt credentialData KS (entropy env) in
    match split_on "."%char encryptedDataB64 with
    | ivB64 :: ciphertextB64 :: _ =>
      match unb64 ciphertextB64, unb64 ivB64 with
      | Some encryptedData, Some entryNonce =>
        match Envelope.encode sessionNonceBytes entryNonce encryptedData with
        | None => (w, Throws)
        | Some blobData =>
          if negb (signer_available env) then (w, Throws) else
          match Walrus.storeBlob w blobData (upload_relay env) (walrus_reply env) with
          | (w, Throws) => (w, Throws)
          | (w, Returns blobId) =>
            let blobIds := existing_blob_ids w exists_ vaultId domainHashB64 in
            let blobIds := blobIds ++ [JString blobId] in
            let blobIdsJson := JSON_stringify (JArray blobIds) in
            let blobIdsBytes := TextEncoder_encode blobIdsJson in
            if exists_
            then (Ledger.updateCredential w vaultId domainHashB64
                    (Build_Info blobIdsBytes [] []), Returns tt)
            else (Ledger.addCredential w vaultId domainHashB64
                    (Build_Info blobIdsBytes [] []), Returns tt)
          end
        end
      | _, _ => (w, Throws)
      end
    | _ => (w, Throws)
    end
  end.




(** [credentialExists]; [KM] is optional. *)
Definition credentialExists (w : World) (domain address : string) (KM : option string)
  : bool :=
  match Ledger.getUserVaultId w address with
  | None => false
  | Some vaultId =>
    if decide (vaultId = EmptyString) then false else
    match KM with
    | Some KM =>
      if decide (KM = EmptyString) then false else
      let domainHashB64 := hashDomain domain KM in
      Ledger.checkCredentialExists w vaultId domainHashB64
    | None => false
    end
  end.

(** [deleteCredential]: only the ledger record is removed. *)
Definition deleteCredential (w : World) (domain KM address : string)
  : World * outcome unit :=
  let domainHashB64 := hashDomain domain KM in
  let '(w, vaultId) := Ledger.getOrCreateVault w address in
  let exists_ := Ledger.checkCredentialExists w vaultId domainHashB64 in
  if negb exists_ then (w, Throws)
  else (Ledger.deleteCredential w vaultId domainHashB64, Returns tt).

(** What a caller sees of a read, whichever of the two read functions made
    it: the outcome with the username and password of each account. *)
Definition accounts {C} (user pass : C → string) (r : outcome (option (list C)))
  : outcome (option (list (string * string))) :=
  match r with
  | Throws => Throws
  | Returns l => Returns (option_map (map (λ c, (user c, pass c))) l)
  end.

End with_platform.

End Vault.

(** ** A small platform on which examples are run

    Hexadecimal text stands in for base64, the cipher prefixes the plaintext
    with the key, and the JSON reader and printer cover texts without string
    escapes.  The examples below only use texts on which the JSON reader and
    printer agree with [JSON.parse] and [JSON.stringify]. *)

Module Sample.
Import Json.

(** The double quote character. *)
Definition dquote : ascii := ascii_of_nat 34.

Definition hex_digit (n : nat) : ascii :=
  ascii_of_nat (if decide (n < 10) then 48 + n else 87 + n).

Definition hex_value (c : ascii) : option nat :=
  let n := nat_of_ascii c in
  if decide (48 ≤ n ∧ n ≤ 57) then Some (n - 48)
  else if decide (97 ≤ n ∧ n ≤ 102) then Some (n - 87)
  else None.

Fixpoint hex (bytes : list byte) : string :=
  match bytes with
  | [] => EmptyString
  | b :: rest =>
    String (hex_digit (Byte.to_nat b / 16))
      (String (hex_digit (Byte.to_nat b mod 16)) (hex rest))
  end.

Fixpoint unhex (s : string) : option (list byte) :=
  match s with
  | EmptyString => Some []
  | String hi (String lo rest) =>
    h ← hex_value hi; l ← hex_value lo;
    b ← Byte.of_nat (16 * h + l);
    bs ← unhex rest; Some (b :: bs)
  | String _ EmptyString => None
  end.

(** [s.startsWith(p)] with the remainder. *)
Fixpoint strip_prefix (p s : string) : option string :=
  match p, s with
  | EmptyString, _ => Some s
  | String a p', String b s' => if decide (a = b) then strip_prefix p' s' else None
  | String _ _, EmptyString => None
  end.

Definition sample_encrypt (plaintext key : string) (entropy : nat) : string :=
  (hex (replicate 12 (Uint8Array.u8 entropy)) ++ "."
   ++ hex (String.list_byte_of_string (key ++ "|" ++ plaintext)))%string.

Definition sample_decrypt (encryptedData key : string) : option string :=
  match split_on "."%char encryptedData with
  | [ivHex; ctHex] =>
    _ ← unhex ivHex;
    ct ← unhex ctHex;
    strip_prefix (key ++ "|") (String.string_of_list_byte ct)
  | _ => None
  end.

Definition quote (s : string) : string :=
  (String dquote s ++ String dquote EmptyString)%string.

Fixpoint join (sep : string) (parts : list string) : string :=
  match parts with
  | [] => EmptyString
  | [x] => x
  | x :: rest => (x ++ sep ++ join sep rest)%string
  end.

Fixpoint print (v : value) : string :=
  match v with
  | JNull => "null"
  | JBool true => "true"
  | JBool false => "false"
  | JNumber n => pretty n
  | JString s => quote s
  | JArray xs => ("[" ++ join "," (map print xs) ++ "]")%string
  | JObject members =>
    ("{" ++ join "," (map (λ kv, quote (fst kv) ++ ":" ++ print (snd kv)) members) ++ "}")%string
  end.

(** Reading: the characters up to the closing quote of a string. *)
Fixpoint read_string (s : list ascii) : option (string * list ascii) :=
  match s with
  | [] => None
  | c :: rest =>
    if decide (c = dquote) then Some (EmptyString, rest)
    else if decide (c = "\"%char) then None
    else '(t, rest') ← read_string rest; Some (String c t, rest')
  end.

Fixpoint read_digits (acc : Z) (s : list ascii) : Z * list ascii :=
  match s with
  | c :: rest =>
    let n := nat_of_ascii c in
    if decide (48 ≤ n ∧ n ≤ 57) then read_digits (10 * acc + Z.of_nat (n - 48)) rest
    else (acc, s)
  | [] => (acc, s)
  end.

(** The elements of an array after its opening bracket, with [read] reading
    one value. *)
Fixpoint read_elements (read : list ascii → option (value * list ascii))
    (fuel : nat) (s : list ascii) : option (list value * list ascii) :=
  match fuel with
  | 0 => None
  | S fuel =>
    '(v, rest) ← read s;
    match rest with
    | c :: rest' =>
      if decide (c = ","%char) then
        '(vs, rest'') ← read_elements read fuel rest'; Some (v :: vs, rest'')
      else if decide (c = "]"%char) then Some ([v], rest')
      else None
    | [] => None
    end
  end.

Fixpoint read_members (read : list ascii → option (value * list ascii))
    (fuel : nat) (s : list ascii) : option (list (string * value) * list ascii) :=
  match fuel with
  | 0 => None
  | S fuel =>
    match s with
    | q :: s1 =>
      if decide (q = dquote) then
        '(k, s2) ← read_string s1;
        match s2 with
        | colon :: s3 =>
          if decide (colon = ":"%char) then
            '(v, rest) ← read s3;
            match rest with
            | c :: rest' =>
              if decide (c = ","%char) then
                '(ms, rest'') ← read_members read fuel rest'; Some ((k, v) :: ms, rest'')
              else if decide (c = "}"%char) then Some ([(k, v)], rest')
              else None
            | [] => None
            end
          else None
        | [] => None
        end
      else None
    | [] => None
    end
  end.

Fixpoint read_value (fuel : nat) (s : list ascii) : option (value * list ascii) :=
  match fuel with
  | 0 => None
  | S fuel =>
    match s with
    | [] => None
    | c :: rest =>
      if decide (c = dquote) then
        '(t, rest') ← read_string rest; Some (JString t, rest')
      else if decide (c = "["%char) then
        match rest with
        | c' :: rest' =>
          if decide (c' = "]"%char) then Some (JArray [], rest')
          else '(vs, r) ← read_elements (read_value fuel) (length rest) rest; Some (JArray vs, r)
        | [] => None
        end
      else if decide (c = "{"%char) then
        match rest with
        | c' :: rest' =>
          if decide (c' = "}"%char) then Some (JObject [], rest')
          else '(ms, r) ← read_members (read_value fuel) (length rest) rest; Some (JObject ms, r)
        | [] => None
        end
      else if decide (48 ≤ nat_of_ascii c ∧ nat_of_ascii c ≤ 57) then
        let '(n, r) := read_digits 0 s in Some (JNumber n, r)
      else
        match s with
        | "n"%char :: "u"%char :: "l"%char :: "l"%char :: r => Some (JNull, r)
        | "t"%char :: "r"%char :: "u"%char :: "e"%char :: r => Some (JBool true, r)
        | "f"%char :: "a"%char :: "l"%char :: "s"%char :: "e"%char :: r => Some (JBool false, r)
        | _ => None
        end
    end
  end.

Definition parse (s : string) : option value :=
  let cs := String.list_ascii_of_string s in
  match read_value (S (length cs)) cs with
  | Some (v, []) => Some v
  | _ => None
  end.

#[export] Instance platform : Platform := {|
  hashDomain domain KM := ("fp:" ++ KM ++ ":" ++ domain)%string;
  deriveKS KM sessionNonce := (KM ++ "/" ++ sessionNonce)%string;
  encrypt := sample_encrypt;
  decrypt := sample_decrypt;
  b64 := hex;
  unb64 := unhex;
  JSON_parse := parse;
  JSON_stringify := print;
  TextDecoder_decode := String.string_of_list_byte;
  TextEncoder_encode := String.list_byte_of_string;
|}.

End Sample.

(** ** Worlds and inputs for the examples *)

Module Examples.
Import Json Vault Sample.

Definition owner : string := "0xabc".
Definition KM : string := "KM".

Definition alice : Credential :=
  {| domain := "example.com"; username := "alice"; password := "pw1" |}.
Definition bob : Credential :=
  {| domain := "example.com"; username := "bob"; password := "pw2" |}.

Definition envA : SaveEnv :=
  {| drawn_sessionNonce := "0a0b"; entropy := 7; signer_available := true;
     upload_relay := true; walrus_reply := Some "blobA" |}.
Definition envB : SaveEnv :=
  {| drawn_sessionNonce := "0c0d"; entropy := 9; signer_available := true;
     upload_relay := false; walrus_reply := Some "blobB" |}.

(** Nothing on the ledger, nothing on Walrus. *)
Definition w_empty : World := {| vaults := ∅; blobs := ∅ |}.

(** The owner has a vault without a record for [example.com]. *)
Definition w_absent : World := {| vaults := {[ owner := ∅ ]}; blobs := ∅ |}.

Definition record (text : string) : Info :=
  {| data := String.list_byte_of_string text; entryNonce := []; sessionNonce := [] |}.

Definition with_record (text : string) (store : gmap string (list byte)) : World :=
  {| vaults := {[ owner := {[ hashDomain "example.com" KM := record text ]} ]};
     blobs := store |}.

(** A record whose payload is the JSON text of the empty array. *)
Definition empty_array_record : Info := record "[]".
Definition w_empty_array : World := with_record "[]" ∅.

(** A record that names one blob, which is too short to be an envelope. *)
Definition w_undecodable : World :=
  with_record (print (JArray [JString "blobA"])) {[ "blobA" := [x00] ]}.

(** A record that names two blobs, the first of which is truncated. *)
Definition two_blob_text : string := print (JArray [JString "blobA"; JString "blobB"]).

Definition w_one_bad : World :=
  with_record two_blob_text
    (<[ "blobA" := [x00] ]>
       (blobs (saveCredential w_empty bob KM owner envB).1)).




End Examples.

(** ** Master-key manager ([SecureMasterKeyManager]) *)

Module KeyManager.

(** The manager's state.  [masterKey] is a reference to a [Uint8Array] in the
    heap, [promise] the identity of the derivation promise, [clearanceTimer]
    the handle of a pending [setTimeout]. *)
Record SecureMasterKeyState := {
  masterKey : option nat;
  isLoading : bool;
  promise : option nat;
  lastAddress : option string;
  createdAt : option Z;
  accessCount : nat;
  lastAccessTime : option Z;
  clearanceTimer : option nat
}.

(** The two callbacks the manager hands to [setTimeout]. *)
Inductive callback :=
| CheckClearance
| ClearOnNextTick.

(** The part of the JavaScript runtime the manager acts on: its own state,
    the typed-array buffers, the pending timers, the calls made so far to
    [deriveMasterKey] (promise and address), and a supply of fresh handles. *)
Record Runtime := {
  state : SecureMasterKeyState;
  heap : gmap nat (list byte);
  timers : gmap nat callback;
  derivations : list (nat * string);
  fresh : nat
}.

Definition MAX_KEY_AGE : Z := 8 * 60 * 60 * 1000.
Definition IDLE_TIMEOUT : Z := 30 * 60 * 1000.
Definition MAX_ACCESS_COUNT : nat := 1000.

Definition initial : Runtime := {|
  state := {| masterKey := None; isLoading := false; promise := None;
              lastAddress := None; createdAt := None; accessCount := 0;
              lastAccessTime := None; clearanceTimer := None |};
  heap := ∅; timers := ∅; derivations := []; fresh := 1
|}.

(** Assignments to one field. *)
Definition set_masterKey (v : option nat) (s : SecureMasterKeyState) :=
  {| masterKey := v; isLoading := isLoading s; promise := promise s;
     lastAddress := lastAddress s; createdAt := createdAt s;
     accessCount := accessCount s; lastAccessTime := lastAccessTime s;
     clearanceTimer := clearanceTimer s |}.
Definition set_isLoading (v : bool) (s : SecureMasterKeyState) :=
  {| masterKey := masterKey s; isLoading := v; promise := promise s;
     lastAddress := lastAddress s; createdAt := createdAt s;
     accessCount := accessCount s; lastAccessTime := lastAccessTime s;
     clearanceTimer := clearanceTimer s |}.
Definition set_promise (v : option nat) (s : SecureMasterKeyState) :=
  {| masterKey := masterKey s; isLoading := isLoading s; promise := v;
     lastAddress := lastAddress s; createdAt := createdAt s;
     accessCount := accessCount s; lastAccessTime := lastAccessTime s;
     clearanceTimer := clearanceTimer s |}.
Definition set_lastAddress (v : option string) (s : SecureMasterKeyState) :=
  {| masterKey := masterKey s; isLoading := isLoading s; promise := promise s;
     lastAddress := v; createdAt := createdAt s;
     accessCount := accessCount s; lastAccessTime := lastAccessTime s;
     clearanceTimer := clearanceTimer s |}.
Definition set_createdAt (v : option Z) (s : SecureMasterKeyState) :=
  {| masterKey := masterKey s; isLoading := isLoading s; promise := promise s;
     lastAddress := lastAddress s; createdAt := v;
     accessCount := accessCount s; lastAccessTime := lastAccessTime s;
     clearanceTimer := clearanceTimer s |}.
Definition set_accessCount (v : nat) (s : SecureMasterKeyState) :=
  {| masterKey := masterKey s; isLoading := isLoading s; promise := promise s;
     lastAddress := lastAddress s; createdAt := createdAt s;
     accessCount := v; lastAccessTime := lastAccessTime s;
     clearanceTimer := clearanceTimer s |}.
Definition set_lastAccessTime (v : option Z) (s : SecureMasterKeyState) :=
  {| masterKey := masterKey s; isLoading := isLoading s; promise := promise s;
     lastAddress := lastAddress s; createdAt := createdAt s;
     accessCount := accessCount s; lastAccessTime := v;
     clearanceTimer := clearanceTimer s |}.
Definition set_clearanceTimer (v : option nat) (s : SecureMasterKeyState) :=
  {| masterKey := masterKey s; isLoading := isLoading s; promise := promise s;
     lastAddress := lastAddress s; createdAt := createdAt s;
     accessCount := accessCount s; lastAccessTime := lastAccessTime s;
     clearanceTimer := v |}.

(** [this.state.f = v] *)
Definition assign (f : SecureMasterKeyState → SecureMasterKeyState) (rt : Runtime) : Runtime :=
  {| state := f (state rt); heap := heap rt; timers := timers rt;
     derivations := derivations rt; fresh := fresh rt |}.

(** [buffer.fill(0)] on the buffer behind a reference *)
Definition fill_zero (key : nat) (rt : Runtime) : Runtime :=
  {| state := state rt; heap := alter Uint8Array.fill0 key (heap rt);
     timers := timers rt; derivations := derivations rt; fresh := fresh rt |}.

(** [new Uint8Array] holding [bytes]: the reference and the new runtime *)
Definition allocate (bytes : list byte) (rt : Runtime) : nat * Runtime :=
  (fresh rt,
   {| state := state rt; heap := <[fresh rt := bytes]> (heap rt);
      timers := timers rt; derivations := derivations rt; fresh := S (fresh rt) |}).

(** [setTimeout(cb, _)]: the handle and the new runtime *)
Definition setTimeout (cb : callback) (rt : Runtime) : nat * Runtime :=
  (fresh rt,
   {| state := state rt; heap := heap rt; timers := <[fresh rt := cb]> (timers rt);
      derivations := derivations rt; fresh := S (fresh rt) |}).

(** [clearTimeout(timer)] *)
Definition clearTimeout (timer : nat) (rt : Runtime) : Runtime :=
  {| state := state rt; heap := heap rt; timers := delete timer (timers rt);
     derivations := derivations rt; fresh := fresh rt |}.

(** A call of [deriveMasterKey]: it is recorded and its promise returned. *)
Definition deriveMasterKey (address : string) (rt : Runtime) : nat * Runtime :=
  (fresh rt,
   {| state := state rt; heap := heap rt; timers := timers rt;
      derivations := derivations rt ++ [(fresh rt, address)];
      fresh := S (fresh rt) |}).

(** A number is truthy unless it is zero. *)
Definition truthy_time (t : option Z) : bool :=
  match t with
  | Some n => negb (n =? 0)%Z
  | None => false
  end.

Definition secureClearKey (rt : Runtime) : Runtime :=
  let rt :=
    match masterKey (state rt) with
    | Some key =>
      let rt := fill_zero key rt in
      assign (set_masterKey None) rt
    | None => rt
    end in
  match clearanceTimer (state rt) with
  | Some timer =>
    let rt := clearTimeout timer rt in
    assign (set_clearanceTimer None) rt
  | None => rt
  end.

Definition shouldClearKey (rt : Runtime) (now : Z) : bool :=
  if negb (bool_decide (is_Some (masterKey (state rt)))) || negb (truthy_time (createdAt (state rt)))
  then false else
  let age := (now - default 0 (createdAt (state rt)))%Z in
  (* [None] stands for [Infinity] *)
  let timeSinceAccess :=
    if truthy_time (lastAccessTime (state rt))
    then Some (now - default 0 (lastAccessTime (state rt)))%Z
    else None in
  if (MAX_KEY_AGE <? age)%Z then true
  else if match timeSinceAccess with
          | Some d => (IDLE_TIMEOUT <? d)%Z
          | None => true
          end then true
  else if bool_decide (MAX_ACCESS_COUNT < accessCount (state rt)) then true
  else false.

Definition clearCache (rt : Runtime) : Runtime :=
  let rt := secureClearKey rt in
  let rt := assign (set_isLoading false) rt in
  let rt := assign (set_promise None) rt in
  let rt := assign (set_lastAddress None) rt in
  let rt := assign (set_createdAt None) rt in
  let rt := assign (set_accessCount 0) rt in
  assign (set_lastAccessTime None) rt.

Definition setupClearanceTimer (rt : Runtime) : Runtime :=
  let rt :=
    match clearanceTimer (state rt) with
    | Some timer => clearTimeout timer rt
    | None => rt
    end in
  let '(timer, rt) := setTimeout CheckClearance rt in
  assign (set_clearanceTimer (Some timer)) rt.

Definition recordAccess (rt : Runtime) (now : Z) : Runtime :=
  let rt := assign (set_accessCount (S (accessCount (state rt)))) rt in
  let rt := assign (set_lastAccessTime (Some now)) rt in
  if shouldClearKey rt now then (setTimeout ClearOnNextTick rt).2 else rt.

(** What a call of [getMasterKey] hands back: the cached key (the bytes that
    [secureArrayToString] decodes), the promise of a derivation already in
    flight, or the promise of the derivation it has just started. *)
Inductive reply :=
| Cached (key : option (list byte))
| InFlight (p : nat)
| Started (p : nat).

Definition getMasterKey (rt : Runtime) (now : Z) (address : string) : Runtime * reply :=
  let rt := if shouldClearKey rt now then clearCache rt else rt in
  if bool_decide (is_Some (masterKey (state rt)))
     && bool_decide (lastAddress (state rt) = Some address)
  then
    let rt := recordAccess rt now in
    (rt, Cached (masterKey (state rt) ≫= λ key, heap rt !! key))
  else
    match (if isLoading (state rt) && bool_decide (lastAddress (state rt) = Some address)
           then promise (state rt) else None) with
    | Some p => (rt, InFlight p)
    | None =>
      let rt := if bool_decide (lastAddress (state rt) ≠ Some address)
                then clearCache rt else rt in
      let rt := assign (set_isLoading true) rt in
      let rt := assign (set_lastAddress (Some address)) rt in
      let '(p, rt) := deriveMasterKey address rt in
      (assign (set_promise (Some p)) rt, Started p)
    end.

(** The [then] callback of the derivation promise, run when the derivation
    resolves with [key] (the UTF-8 bytes of the derived string). *)
Definition on_fulfilled (rt : Runtime) (now : Z) (key : list byte) : Runtime :=
  let '(buffer, rt) := allocate key rt in
  let rt := assign (set_masterKey (Some buffer)) rt in
  let rt := assign (set_isLoading false) rt in
  let rt := assign (set_createdAt (Some now)) rt in
  let rt := assign (set_accessCount 0) rt in
  let rt := assign (set_lastAccessTime (Some now)) rt in
  let rt := setupClearanceTimer rt in
  recordAccess rt now.

(** The [catch] callback, run when the derivation fails. *)
Definition on_rejected (rt : Runtime) : Runtime :=
  let rt := assign (set_isLoading false) rt in
  assign (set_promise None) rt.

Definition setMasterKey (rt : Runtime) (now : Z) (address : string) (key : list byte)
  : Runtime :=
  let rt := secureClearKey rt in
  let '(buffer, rt) := allocate key rt in
  let rt := assign (set_masterKey (Some buffer)) rt in
  let rt := assign (set_lastAddress (Some address)) rt in
  let rt := assign (set_createdAt (Some now)) rt in
  let rt := assign (set_accessCount 0) rt in
  let rt := assign (set_lastAccessTime (Some now)) rt in
  setupClearanceTimer rt.

(** A pending timer fires: it leaves the timer table and its callback runs. *)
Definition fire (rt : Runtime) (now : Z) (timer : nat) : Runtime :=
  match timers rt !! timer with
  | None => rt
  | Some cb =>
    let rt := clearTimeout timer rt in
    match cb with
    | CheckClearance => if shouldClearKey rt now then clearCache rt else setupClearanceTimer rt
    | ClearOnNextTick => clearCache rt
    end
  end.

(** A derivation is in flight for [address]: the manager holds its promise
    [p], is loading for that address and has no key. *)
Definition in_flight (rt : Runtime) (address : string) (p : nat) : Prop :=
  masterKey (state rt) = None
  ∧ isLoading (state rt) = true
  ∧ lastAddress (state rt) = Some address
  ∧ promise (state rt) = Some p.

(** The calls and events that drive the manager. *)
Inductive action :=
| GetMasterKey (now : Z) (address : string)
| Fulfilled (now : Z) (key : list byte)
| Rejected
| SetMasterKey (now : Z) (address : string) (key : list byte)
| Fire (now : Z) (timer : nat)
| ClearCache.

Definition act (rt : Runtime) (a : action) : Runtime :=
  match a with
  | GetMasterKey now address => (getMasterKey rt now address).1
  | Fulfilled now key => on_fulfilled rt now key
  | Rejected => on_rejected rt
  | SetMasterKey now address key => setMasterKey rt now address key
  | Fire now timer => fire rt now timer
  | ClearCache => clearCache rt
  end.

(** Timer handles come from the supply, and a pending periodic check is the
    one the state records. *)
Definition timers_tracked (rt : Runtime) : Prop :=
  (∀ t cb, timers rt !! t = Some cb → t < fresh rt)
  ∧ (∀ t, timers rt !! t = Some CheckClearance → clearanceTimer (state rt) = Some t).

(** A runtime in which a key derived for one address is cached. *)
Definition cached_example : Runtime :=
  on_fulfilled (getMasterKey initial 5 "0xabc").1 6 [x6b; x65; x79].

(** The cached key has been handed out a thousand times since. *)
Definition worn_example : Runtime :=
  foldl act cached_example (replicate 1000 (GetMasterKey 7 "0xabc")).

(** [getCachedMasterKey]: the cached key without a derivation; [None] is
    [null]. *)
Definition getCachedMasterKey (rt : Runtime) (now : Z)
  : Runtime * option (option (list byte)) :=
  if shouldClearKey rt now then (clearCache rt, None) else
  if bool_decide (is_Some (masterKey (state rt))) then
    let rt := recordAccess rt now in
    (rt, Some (masterKey (state rt) ≫= λ key, heap rt !! key))
  else (rt, None).

#[export] Instance callback_eq_dec : EqDecision callback.
Proof. solve_decision. Defined.

(** The periodic checks among the pending timers. *)
Definition pending_checks (rt : Runtime) : list (nat * callback) :=
  filter (λ t, t.2 = CheckClearance) (map_to_list (timers rt)).

End KeyManager.

(** ** Secure cache ([SecurePersistenceManager] and [SecurityValidator]) *)

Module StoredData.
Record t := {
  data : string;
  salt : string;
  iv : string;
  iterations : Z;
  timestamp : Z;
  expiresAt : Z
}.
End StoredData.

Module PersistedSession.
Record t := {
  address : string;
  idToken : string;
  provider : string;
  createdAt : Z;
  masterKey : string;
  timestamp : Z;
  expiresAt : Z;
  sessionId : string;
  integrity : string
}.

(** [{...session, integrity: ''}] *)
Definition without_integrity (s : t) : t :=
  {| address := address s; idToken := idToken s; provider := provider s;
     createdAt := createdAt s; masterKey := masterKey s; timestamp := timestamp s;
     expiresAt := expiresAt s; sessionId := sessionId s; integrity := EmptyString |}.
End PersistedSession.

Module PersistedCredentials.
Record entry := {
  domain : string;
  username : string;
  password : option string
}.

Record t := {
  credentials : list entry;
  timestamp : Z;
  expiresAt : Z;
  sessionId : string;
  integrity : string
}.

(** [{...cached, integrity: ''}] *)
Definition without_integrity (c : t) : t :=
  {| credentials := credentials c; timestamp := timestamp c;
     expiresAt := expiresAt c; sessionId := sessionId c; integrity := EmptyString |}.
End PersistedCredentials.

(** What the persistence manager takes from its platform beyond the vault's:
    PBKDF2 and SHA-256 from [crypto.subtle], and [JSON] at the three declared
    interfaces.  A stored text either parses to a value of the interface or
    the parse raises ([None]). *)
Class CachePlatform `{Platform} := {
  deriveKey : string → list byte → Z → list byte;
  sha256_hex : list byte → string;
  parse_StoredData : string → option StoredData.t;
  stringify_StoredData : StoredData.t → string;
  parse_PersistedSession : string → option PersistedSession.t;
  stringify_PersistedSession : PersistedSession.t → string;
  parse_PersistedCredentials : string → option PersistedCredentials.t;
  stringify_PersistedCredentials : PersistedCredentials.t → string;
}.

(** ** Regular expressions ([RegExp.prototype.test]) *)

Module Regex.

(** The regular expressions that the validators test strings against.
    [Class p] is a character class, [Void] matches nothing. *)
Inductive re :=
| Void
| Eps
| Class (p : ascii → bool)
| Seq (r1 r2 : re)
| Alt (r1 r2 : re)
| Star (r : re).

(** The strings a regular expression matches from start to end. *)
Inductive lang : re → list ascii → Prop :=
| lang_eps : lang Eps []
| lang_class p c : p c = true → lang (Class p) [c]
| lang_seq r1 r2 s1 s2 : lang r1 s1 → lang r2 s2 → lang (Seq r1 r2) (s1 ++ s2)
| lang_alt_l r1 r2 s : lang r1 s → lang (Alt r1 r2) s
| lang_alt_r r1 r2 s : lang r2 s → lang (Alt r1 r2) s
| lang_star_nil r : lang (Star r) []
| lang_star_cons r s1 s2 : lang r s1 → lang (Star r) s2 → lang (Star r) (s1 ++ s2).

Fixpoint nullable (r : re) : bool :=
  match r with
  | Void => false
  | Eps => true
  | Class _ => false
  | Seq r1 r2 => nullable r1 && nullable r2
  | Alt r1 r2 => nullable r1 || nullable r2
  | Star _ => true
  end.

Definition seq (r1 r2 : re) : re :=
  match r1, r2 with
  | Void, _ => Void
  | _, Void => Void
  | Eps, _ => r2
  | _, _ => Seq r1 r2
  end.

Definition alt (r1 r2 : re) : re :=
  match r1, r2 with
  | Void, _ => r2
  | _, Void => r1
  | _, _ => Alt r1 r2
  end.

(** What is left to match after the character [c]. *)
Fixpoint deriv (c : ascii) (r : re) : re :=
  match r with
  | Void => Void
  | Eps => Void
  | Class p => if p c then Eps else Void
  | Seq r1 r2 =>
    if nullable r1 then alt (seq (deriv c r1) r2) (deriv c r2)
    else seq (deriv c r1) r2
  | Alt r1 r2 => alt (deriv c r1) (deriv c r2)
  | Star r1 => seq (deriv c r1) (Star r1)
  end.

Fixpoint matches (r : re) (s : list ascii) : bool :=
  match s with
  | [] => nullable r
  | c :: s => matches (deriv c r) s
  end.

(** [r?] and [r{0,n}] *)
Definition opt (r : re) : re := Alt Eps r.

Fixpoint upto (n : nat) (r : re) : re :=
  match n with
  | 0 => Eps
  | S n => opt (Seq r (upto n r))
  end.

(** Any character at all. *)
Definition any : re := Class (λ _, true).

(** Letters compare without case under the [i] flag. *)
Definition to_lower (c : ascii) : ascii :=
  let n := nat_of_ascii c in
  if decide (65 ≤ n ∧ n ≤ 90) then ascii_of_nat (n + 32) else c.

Definition chr_ci (ch : ascii) : re :=
  Class (λ c, bool_decide (to_lower c = to_lower ch)).

Fixpoint lit_ci (s : list ascii) : re :=
  match s with
  | [] => Eps
  | ch :: s => Seq (chr_ci ch) (lit_ci s)
  end.

(** [/^r$/.test(s)] *)
Definition test_whole (r : re) (s : string) : bool :=
  matches r (String.list_ascii_of_string s).

(** [/r/.test(s)]: the pattern is found somewhere in [s]. *)
Definition test (r : re) (s : string) : bool :=
  matches (Seq (Star any) (Seq r (Star any))) (String.list_ascii_of_string s).

End Regex.

Module SecurityValidator.

Definition is_hex (c : ascii) : bool :=
  let n := nat_of_ascii c in
  bool_decide (48 ≤ n ∧ n ≤ 57) || bool_decide (65 ≤ n ∧ n ≤ 70)
  || bool_decide (97 ≤ n ∧ n ≤ 102).

(** [validateSuiAddress] returns normally: the address is not empty and
    matches [/^0x[a-fA-F0-9]{64}$/]. *)
Definition validateSuiAddress (address : string) : bool :=
  match address with
  | String "0" (String "x" digits) =>
    bool_decide (String.length digits = 64)
    && forallb is_hex (String.list_ascii_of_string digits)
  | _ => false
  end.

(** The white space that [trim] removes, among the ASCII characters. *)
Definition is_space (c : ascii) : bool :=
  let n := nat_of_ascii c in
  bool_decide (9 ≤ n ∧ n ≤ 13) || bool_decide (n = 32).

(** [validateJWT] returns normally: the token is not empty and not made of
    white space only; every other finding is logged and let through. *)
Definition validateJWT (token : string) : bool :=
  negb (forallb is_space (String.list_ascii_of_string token)).

(** [validateTimestamp]: a non-negative integer within a year of now. *)
Definition validateTimestamp (now timestamp : Z) : bool :=
  let year := (365 * 24 * 60 * 60 * 1000)%Z in
  (0 <=? timestamp)%Z && (now - year <=? timestamp)%Z && (timestamp <=? now + year)%Z.

(** [validateSessionData] returns normally. *)
Definition validateSessionData (now : Z) (address idToken provider : string)
    (createdAt : Z) (masterKey : string) : bool :=
  validateSuiAddress address
  && validateJWT idToken
  && bool_decide (1 ≤ String.length provider ∧ String.length provider ≤ 50)
  && validateTimestamp now createdAt
  && (bool_decide (masterKey = EmptyString) || bool_decide (32 ≤ String.length masterKey)).

Import Regex.

Definition alnum (c : ascii) : bool :=
  let n := nat_of_ascii c in
  bool_decide (97 ≤ n ∧ n ≤ 122) || bool_decide (65 ≤ n ∧ n ≤ 90)
  || bool_decide (48 ≤ n ∧ n ≤ 57).

Definition alnum_hyphen (c : ascii) : bool :=
  alnum c || bool_decide (c = "-"%char).

Definition is_dot (c : ascii) : bool := bool_decide (c = "."%char).

(** [[a-zA-Z0-9]([a-zA-Z0-9-]{0,61}[a-zA-Z0-9])?] *)
Definition label : re :=
  Seq (Class alnum) (opt (Seq (upto 61 (Class alnum_hyphen)) (Class alnum))).

(** The [domainRegex] of [validateDomain], between [^] and [$]. *)
Definition domainRegex : re :=
  Seq label (Star (Seq (Class is_dot) label)).

(** [validateDomain] returns normally. *)
Definition validateDomain (domain : string) : bool :=
  negb (bool_decide (domain = EmptyString))
  && bool_decide (1 ≤ String.length domain ∧ String.length domain ≤ 253)
  && test_whole domainRegex domain.

(** The [dangerousPatterns] of [validateUsername], all with the [i] flag. *)
Definition dangerousPatterns : list string :=
  ["<script"; "javascript:"; "data:text/html"; "vbscript:"; "onload="; "onerror="]%string.

(** [validateUsername] returns normally. *)
Definition validateUsername (username : string) : bool :=
  negb (bool_decide (username = EmptyString))
  && bool_decide (1 ≤ String.length username ∧ String.length username ≤ 256)
  && forallb (λ pattern,
                negb (test (lit_ci (String.list_ascii_of_string pattern)) username))
       dangerousPatterns.

(** [validatePassword] returns normally; [None] is [undefined]. *)
Definition validatePassword (password : option string) : bool :=
  match password with
  | Some p => bool_decide (String.length p ≤ 1024)
  | None => true
  end.

(** [validateCredentialData] returns normally. *)
Definition validateCredentialData (c : PersistedCredentials.entry) : bool :=
  validateDomain (PersistedCredentials.domain c)
  && validateUsername (PersistedCredentials.username c)
  && validatePassword (PersistedCredentials.password c).

(** A label of a domain name as the regular expression wants it: at most 63
    letters, digits and hyphens, the first and the last not a hyphen. *)
Definition valid_label (t : string) : Prop :=
  let cs := String.list_ascii_of_string t in
  1 ≤ length cs ∧ length cs ≤ 63
  ∧ Forall (λ c, alnum_hyphen c = true) cs
  ∧ (∃ c, head cs = Some c ∧ alnum c = true)
  ∧ (∃ c, last cs = Some c ∧ alnum c = true).

(** The text [m] occurs in [s], letters compared without case. *)
Definition occurs_ci (m s : string) : Prop :=
  ∃ pre mid post,
    String.list_ascii_of_string s = pre ++ mid ++ post
    ∧ to_lower <$> mid = to_lower <$> String.list_ascii_of_string m.

End SecurityValidator.

Module SecureCache.
Import SecurityValidator.

(** The two web storages; [rnd] below is the random text that the secure
    deletion writes over a slot before removing it. *)
Record Browser := {
  localStorage : gmap string string;
  sessionStorage : gmap string string
}.

Definition SESSION_KEY : string := "safekey_session_encrypted".
Definition CREDENTIALS_KEY : string := "safekey_credentials_encrypted".
Definition SESSION_TTL : Z := 8 * 60 * 60 * 1000.
Definition CREDENTIALS_TTL : Z := 5 * 60 * 1000.
Definition PBKDF2_ITERATIONS : Z := 600000.

(** A stored text is truthy unless it is empty. *)
Definition truthy_text (text : option string) : bool :=
  match text with
  | Some s => if decide (s = EmptyString) then false else true
  | None => false
  end.

Definition clearSession (b : Browser) (rnd : string) : Browser :=
  let b :=
    if truthy_text (localStorage b !! SESSION_KEY)
    then {| localStorage := <[SESSION_KEY := rnd]> (localStorage b);
            sessionStorage := sessionStorage b |}
    else b in
  {| localStorage := delete SESSION_KEY (localStorage b);
     sessionStorage := sessionStorage b |}.

Definition clearCredentials (b : Browser) (rnd : string) : Browser :=
  let b :=
    if truthy_text (sessionStorage b !! CREDENTIALS_KEY)
    then {| localStorage := localStorage b;
            sessionStorage := <[CREDENTIALS_KEY := rnd]> (sessionStorage b) |}
    else b in
  {| localStorage := localStorage b;
     sessionStorage := delete CREDENTIALS_KEY (sessionStorage b) |}.

Section with_platform.
Context `{CachePlatform}.

Definition calculateIntegrity (text : string) (key : list byte) : string :=
  sha256_hex (TextEncoder_encode text ++ key).

Definition generateEncryptionKey (address idToken : string) (salt : list byte)
  : list byte :=
  deriveKey (address ++ ":" ++ idToken)%string salt PBKDF2_ITERATIONS.

(** The inner [try] block of [getSessionIfValid], entered with the key:
    [None] is an exception, [Some None] a rejection after which the session
    is cleared, [Some (Some s)] the verified session. *)
Definition verify_session (sd : StoredData.t) (encryptionKey : list byte)
    (currentAddress currentIdToken : string)
  : option (option PersistedSession.t) :=
  let encryptionKeyBase64 := b64 encryptionKey in
  match decrypt (StoredData.data sd) encryptionKeyBase64 with
  | None => None
  | Some decryptedData =>
    match parse_PersistedSession decryptedData with
    | None => None
    | Some session =>
      if negb (bool_decide (PersistedSession.address session = currentAddress))
         || negb (bool_decide (PersistedSession.idToken session = currentIdToken))
      then Some None else
      let expectedIntegrity :=
        calculateIntegrity
          (stringify_PersistedSession (PersistedSession.without_integrity session))
          encryptionKey in
      if negb (bool_decide (PersistedSession.integrity session = expectedIntegrity))
      then Some None
      else Some (Some session)
    end
  end.

Definition getSessionIfValid (b : Browser) (now : Z)
    (currentAddress currentIdToken rnd : string)
  : Browser * option PersistedSession.t :=
  if negb (validateSuiAddress currentAddress && validateJWT currentIdToken)
  then (clearSession b rnd, None) else
  match localStorage b !! SESSION_KEY with
  | None => (b, None)
  | Some storedDataStr =>
    if negb (truthy_text (Some storedDataStr)) then (b, None) else
    match parse_StoredData storedDataStr with
    | None => (clearSession b rnd, None)
    | Some storedData =>
      if (StoredData.expiresAt storedData <? now)%Z
      then (clearSession b rnd, None) else
      match unb64 (StoredData.salt storedData) with
      | None => (clearSession b rnd, None)
      | Some salt =>
        let encryptionKey := generateEncryptionKey currentAddress currentIdToken salt in
        match verify_session storedData encryptionKey currentAddress currentIdToken with
        | Some (Some session) => (b, Some session)
        | Some None => (clearSession b rnd, None)
        | None => (clearSession b rnd, None)
        end
      end
    end
  end.

(** The inner [try] block of [getCredentials]. *)
Definition verify_credentials (sd : StoredData.t) (encryptionKey : list byte)
  : option (option PersistedCredentials.t) :=
  let encryptionKeyBase64 := b64 encryptionKey in
  match decrypt (StoredData.data sd) encryptionKeyBase64 with
  | None => None
  | Some decryptedData =>
    match parse_PersistedCredentials decryptedData with
    | None => None
    | Some cached =>
      let expectedIntegrity :=
        calculateIntegrity
          (stringify_PersistedCredentials (PersistedCredentials.without_integrity cached))
          encryptionKey in
      if negb (bool_decide (PersistedCredentials.integrity cached = expectedIntegrity))
      then Some None
      else Some (Some cached)
    end
  end.

Definition getCredentials (b : Browser) (now : Z) (masterKey rnd : string)
  : Browser * option (list PersistedCredentials.entry) :=
  match sessionStorage b !! CREDENTIALS_KEY with
  | None => (b, None)
  | Some storedDataStr =>
    if negb (truthy_text (Some storedDataStr)) then (b, None) else
    match parse_StoredData storedDataStr with
    | None => (clearCredentials b rnd, None)
    | Some storedData =>
      if (StoredData.expiresAt storedData <? now)%Z
      then (clearCredentials b rnd, None) else
      match unb64 (StoredData.salt storedData) with
      | None => (clearCredentials b rnd, None)
      | Some salt =>
        let encryptionKey :=
          deriveKey masterKey salt (StoredData.iterations storedData) in
        match verify_credentials storedData encryptionKey with
        | Some (Some cached) => (b, Some (PersistedCredentials.credentials cached))
        | Some None => (clearCredentials b rnd, None)
        | None => (clearCredentials b rnd, None)
        end
      end
    end
  end.

(** The random draws of one [storeSession]. *)
Record StoreDraws := {
  drawn_sessionId : string;
  drawn_salt : list byte;
  drawn_iv : list byte;
  drawn_entropy : nat
}.

Definition storeSession (b : Browser) (now : Z) (address idToken provider : string)
    (createdAt : Z) (masterKey : string) (draws : StoreDraws) : Browser * outcome unit :=
  if negb (SecurityValidator.validateSessionData now address idToken provider
             createdAt masterKey)
  then (b, Throws) else
  let expiresAt := (now + SESSION_TTL)%Z in
  let sessionId := drawn_sessionId draws in
  let salt := drawn_salt draws in
  let encryptionKey := generateEncryptionKey address idToken salt in
  let persistedSession :=
    {| PersistedSession.address := address; PersistedSession.idToken := idToken;
       PersistedSession.provider := provider; PersistedSession.createdAt := createdAt;
       PersistedSession.masterKey := masterKey; PersistedSession.timestamp := now;
       PersistedSession.expiresAt := expiresAt; PersistedSession.sessionId := sessionId;
       PersistedSession.integrity := EmptyString |} in
  let dataToEncrypt := stringify_PersistedSession persistedSession in
  let integrity := calculateIntegrity dataToEncrypt encryptionKey in
  let persistedSession :=
    {| PersistedSession.address := address; PersistedSession.idToken := idToken;
       PersistedSession.provider := provider; PersistedSession.createdAt := createdAt;
       PersistedSession.masterKey := masterKey; PersistedSession.timestamp := now;
       PersistedSession.expiresAt := expiresAt; PersistedSession.sessionId := sessionId;
       PersistedSession.integrity := integrity |} in
  let encryptionKeyBase64 := b64 encryptionKey in
  let encryptedData :=
    encrypt (stringify_PersistedSession persistedSession) encryptionKeyBase64
      (drawn_entropy draws) in
  let storedData :=
    {| StoredData.data := encryptedData; StoredData.salt := b64 salt;
       StoredData.iv := b64 (drawn_iv draws);
       StoredData.iterations := PBKDF2_ITERATIONS;
       StoredData.timestamp := now; StoredData.expiresAt := expiresAt |} in
  ({| localStorage := <[SESSION_KEY := stringify_StoredData storedData]> (localStorage b);
      sessionStorage := sessionStorage b |}, Returns tt).



(** [storeCredentials]; the draws are those of [storeSession]. *)
Definition storeCredentials (b : Browser) (now : Z)
    (credentials : list PersistedCredentials.entry) (masterKey : string)
    (draws : StoreDraws) : Browser * outcome unit :=
  if decide (masterKey = EmptyString) then (b, Throws) else
  if negb (forallb validateCredentialData credentials) then (b, Throws) else
  let expiresAt := (now + CREDENTIALS_TTL)%Z in
  let sessionId := drawn_sessionId draws in
  let salt := drawn_salt draws in
  let encryptionKey := deriveKey masterKey salt PBKDF2_ITERATIONS in
  let persistedCredentials :=
    {| PersistedCredentials.credentials := credentials;
       PersistedCredentials.timestamp := now;
       PersistedCredentials.expiresAt := expiresAt;
       PersistedCredentials.sessionId := sessionId;
       PersistedCredentials.integrity := EmptyString |} in
  let dataToEncrypt := stringify_PersistedCredentials persistedCredentials in
  let integrity := calculateIntegrity dataToEncrypt encryptionKey in
  let persistedCredentials :=
    {| PersistedCredentials.credentials := credentials;
       PersistedCredentials.timestamp := now;
       PersistedCredentials.expiresAt := expiresAt;
       PersistedCredentials.sessionId := sessionId;
       PersistedCredentials.integrity := integrity |} in
  let encryptionKeyBase64 := b64 encryptionKey in
  let encryptedData :=
    encrypt (stringify_PersistedCredentials persistedCredentials) encryptionKeyBase64
      (drawn_entropy draws) in
  let storedData :=
    {| StoredData.data := encryptedData; StoredData.salt := b64 salt;
       StoredData.iv := b64 (drawn_iv draws);
       StoredData.iterations := PBKDF2_ITERATIONS;
       StoredData.timestamp := now; StoredData.expiresAt := expiresAt |} in
  ({| localStorage := localStorage b;
      sessionStorage := <[CREDENTIALS_KEY := stringify_StoredData storedData]>
                          (sessionStorage b) |},
   Returns tt).

(** [hasSession]: a stored record that has not expired, without decrypting. *)
Definition hasSession (b : Browser) (now : Z) : bool :=
  match localStorage b !! SESSION_KEY with
  | None => false
  | Some storedDataStr =>
    if negb (truthy_text (Some storedDataStr)) then false else
    match parse_StoredData storedDataStr with
    | None => false
    | Some storedData => (now <=? StoredData.expiresAt storedData)%Z
    end
  end.

(** [hasCredentials] *)
Definition hasCredentials (b : Browser) (now : Z) : bool :=
  match sessionStorage b !! CREDENTIALS_KEY with
  | None => false
  | Some storedDataStr =>
    if negb (truthy_text (Some storedDataStr)) then false else
    match parse_StoredData storedDataStr with
    | None => false
    | Some storedData => (now <=? StoredData.expiresAt storedData)%Z
    end
  end.

(** [clearAll]; no code ever puts a key into [tempKeys], so its loop over
    them has nothing to do. *)
Definition clearAll (b : Browser) (rnd1 rnd2 : string) : Browser :=
  clearCredentials (clearSession b rnd1) rnd2.


(** The same for a stored credential list. *)
Definition credentials_round_trips (now : Z)
    (credentials : list PersistedCredentials.entry) (masterKey : string)
    (draws : StoreDraws) : Prop :=
  let salt := drawn_salt draws in
  let key := deriveKey masterKey salt PBKDF2_ITERATIONS in
  let expiresAt := (now + CREDENTIALS_TTL)%Z in
  let unsigned :=
    {| PersistedCredentials.credentials := credentials;
       PersistedCredentials.timestamp := now;
       PersistedCredentials.expiresAt := expiresAt;
       PersistedCredentials.sessionId := drawn_sessionId draws;
       PersistedCredentials.integrity := EmptyString |} in
  let signed :=
    {| PersistedCredentials.credentials := credentials;
       PersistedCredentials.timestamp := now;
       PersistedCredentials.expiresAt := expiresAt;
       PersistedCredentials.sessionId := drawn_sessionId draws;
       PersistedCredentials.integrity :=
         calculateIntegrity (stringify_PersistedCredentials unsigned) key |} in
  let cipherText :=
    encrypt (stringify_PersistedCredentials signed) (b64 key) (drawn_entropy draws) in
  let storedData :=
    {| StoredData.data := cipherText; StoredData.salt := b64 salt;
       StoredData.iv := b64 (drawn_iv draws);
       StoredData.iterations := PBKDF2_ITERATIONS;
       StoredData.timestamp := now; StoredData.expiresAt := expiresAt |} in
  stringify_StoredData storedData ≠ EmptyString
  ∧ parse_StoredData (stringify_StoredData storedData) = Some storedData
  ∧ unb64 (b64 salt) = Some salt
  ∧ decrypt cipherText (b64 key) = Some (stringify_PersistedCredentials signed)
  ∧ parse_PersistedCredentials (stringify_PersistedCredentials signed) = Some signed.

End with_platform.

End SecureCache.

(** ** A small cache platform for the examples

    The key stretching concatenates the password and the salt, the digest is
    a polynomial checksum of its input, and the three interfaces are read
    from and printed to the JSON of the sample platform. *)

Module SampleCache.
Import Json Sample.

Definition str_field (k : string) (ms : list (string * value)) : option string :=
  match assoc k ms with
  | Some (JString s) => Some s
  | _ => None
  end.

Definition num_field (k : string) (ms : list (string * value)) : option Z :=
  match assoc k ms with
  | Some (JNumber n) => Some n
  | _ => None
  end.

Definition stored_to_json (sd : StoredData.t) : value :=
  JObject [("data", JString (StoredData.data sd));
           ("salt", JString (StoredData.salt sd));
           ("iv", JString (StoredData.iv sd));
           ("iterations", JNumber (StoredData.iterations sd));
           ("timestamp", JNumber (StoredData.timestamp sd));
           ("expiresAt", JNumber (StoredData.expiresAt sd))].

Definition stored_of_json (v : value) : option StoredData.t :=
  match v with
  | JObject ms =>
    d ← str_field "data" ms; s ← str_field "salt" ms; i ← str_field "iv" ms;
    n ← num_field "iterations" ms; t ← num_field "timestamp" ms;
    e ← num_field "expiresAt" ms;
    Some {| StoredData.data := d; StoredData.salt := s; StoredData.iv := i;
            StoredData.iterations := n; StoredData.timestamp := t;
            StoredData.expiresAt := e |}
  | _ => None
  end.

Definition session_to_json (s : PersistedSession.t) : value :=
  JObject [("address", JString (PersistedSession.address s));
           ("idToken", JString (PersistedSession.idToken s));
           ("provider", JString (PersistedSession.provider s));
           ("createdAt", JNumber (PersistedSession.createdAt s));
           ("masterKey", JString (PersistedSession.masterKey s));
           ("timestamp", JNumber (PersistedSession.timestamp s));
           ("expiresAt", JNumber (PersistedSession.expiresAt s));
           ("sessionId", JString (PersistedSession.sessionId s));
           ("integrity", JString (PersistedSession.integrity s))].

Definition session_of_json (v : value) : option PersistedSession.t :=
  match v with
  | JObject ms =>
    a ← str_field "address" ms; i ← str_field "idToken" ms;
    p ← str_field "provider" ms; c ← num_field "createdAt" ms;
    m ← str_field "masterKey" ms; t ← num_field "timestamp" ms;
    e ← num_field "expiresAt" ms; sid ← str_field "sessionId" ms;
    g ← str_field "integrity" ms;
    Some {| PersistedSession.address := a; PersistedSession.idToken := i;
            PersistedSession.provider := p; PersistedSession.createdAt := c;
            PersistedSession.masterKey := m; PersistedSession.timestamp := t;
            PersistedSession.expiresAt := e; PersistedSession.sessionId := sid;
            PersistedSession.integrity := g |}
  | _ => None
  end.

Definition entry_to_json (e : PersistedCredentials.entry) : value :=
  JObject ([("domain", JString (PersistedCredentials.domain e));
            ("username", JString (PersistedCredentials.username e))]
           ++ match PersistedCredentials.password e with
              | Some p => [("password", JString p)]
              | None => []
              end).

Definition entry_of_json (v : value) : option PersistedCredentials.entry :=
  match v with
  | JObject ms =>
    d ← str_field "domain" ms; u ← str_field "username" ms;
    Some {| PersistedCredentials.domain := d; PersistedCredentials.username := u;
            PersistedCredentials.password := str_field "password" ms |}
  | _ => None
  end.

Definition cached_to_json (c : PersistedCredentials.t) : value :=
  JObject [("credentials", JArray (entry_to_json <$> PersistedCredentials.credentials c));
           ("timestamp", JNumber (PersistedCredentials.timestamp c));
           ("expiresAt", JNumber (PersistedCredentials.expiresAt c));
           ("sessionId", JString (PersistedCredentials.sessionId c));
           ("integrity", JString (PersistedCredentials.integrity c))].

Definition cached_of_json (v : value) : option PersistedCredentials.t :=
  match v with
  | JObject ms =>
    es ← match assoc "credentials" ms with
         | Some (JArray xs) => mapM entry_of_json xs
         | _ => None
         end;
    t ← num_field "timestamp" ms; e ← num_field "expiresAt" ms;
    sid ← str_field "sessionId" ms; g ← str_field "integrity" ms;
    Some {| PersistedCredentials.credentials := es;
            PersistedCredentials.timestamp := t; PersistedCredentials.expiresAt := e;
            PersistedCredentials.sessionId := sid; PersistedCredentials.integrity := g |}
  | _ => None
  end.

#[export] Instance cache_platform : CachePlatform := {|
  deriveKey password salt iterations := String.list_byte_of_string password ++ salt;
  sha256_hex bytes :=
    pretty (foldl (λ acc b, (acc * 31 + Byte.to_N b) mod 1000003)%N 7%N bytes);
  parse_StoredData text := parse text ≫= stored_of_json;
  stringify_StoredData sd := print (stored_to_json sd);
  parse_PersistedSession text := parse text ≫= session_of_json;
  stringify_PersistedSession s := print (session_to_json s);
  parse_PersistedCredentials text := parse text ≫= cached_of_json;
  stringify_PersistedCredentials c := print (cached_to_json c);
|}.

Import SecureCache.

Definition user : string :=
  "0x00112233445566778899aabbccddeeff00112233445566778899aabbccddeeff".
Definition token : string := "header.payload.signature".
Definition key32 : string := "0123456789abcdef0123456789abcdef".

Definition draws : StoreDraws :=
  {| drawn_sessionId := "5e55"; drawn_salt := [x01; x02; x03; x04];
     drawn_iv := [x09]; drawn_entropy := 3 |}.

Definition no_storage : Browser := {| localStorage := ∅; sessionStorage := ∅ |}.

(** The browser after a session was stored at time 1000. *)
Definition stored : Browser :=
  (storeSession no_storage 1000 user token "google" 900 key32 draws).1.

(** The same with the last character of the stored text replaced. *)
Definition tampered : Browser :=
  {| localStorage :=
       match localStorage stored !! SESSION_KEY with
       | Some text =>
         <[SESSION_KEY := (String.substring 0 (String.length text - 1) text ++ "]")%string]>
           (localStorage stored)
       | None => localStorage stored
       end;
     sessionStorage := sessionStorage stored |}.

(** Two accounts as the dashboard caches them. *)
Definition cached_accounts : list PersistedCredentials.entry :=
  [ {| PersistedCredentials.domain := "example.com";
       PersistedCredentials.username := "alice";
       PersistedCredentials.password := Some "pw1"%string |};
    {| PersistedCredentials.domain := "sub.example.org";
       PersistedCredentials.username := "bob";
       PersistedCredentials.password := None |} ].

End SampleCache.

(** ** Pending-write queue *)

Module PendingQueue.

Record PendingWrite := {
  id : nat;
  domain : string;
  username : string;
  password : string;
  enqueuedAt : Z
}.

(** Modelled from the spec: the queue module ([./save-queue]) is missing from
    the sources; only its callers are there (the API server and the
    dashboard poller).  Sections 3 and 4.7 give a mailbox of entries
    [{ id, domain, username, password, enqueuedAt }] keyed by a generated
    identifier, to which [enqueue] adds an entry, from which a poll returns
    every entry not yet completed, in order, and from which [acknowledge(id)]
    removes the entry.  Identifiers are generated from a counter. *)
Record Queue := {
  entries : list PendingWrite;
  next_id : nat
}.

Definition empty : Queue := {| entries := []; next_id := 0 |}.

(** Modelled from the spec: [enqueue(request) -> id]. *)
Definition queueSave (q : Queue) (domain username password : string) (now : Z)
  : Queue * nat :=
  ({| entries := entries q ++ [{| id := next_id q; domain := domain;
                                  username := username; password := password;
                                  enqueuedAt := now |}];
      next_id := S (next_id q) |},
   next_id q).

(** Modelled from the spec: the entries a poll returns. *)
Definition getPendingSaves (q : Queue) : list PendingWrite := entries q.

(** Modelled from the spec: [acknowledge(id)], which tells whether an entry
    was removed. *)
Definition removeFromQueue (q : Queue) (i : nat) : Queue * bool :=
  ({| entries := filter (λ e, id e ≠ i) (entries q); next_id := next_id q |},
   bool_decide (i ∈ id <$> entries q)).

(** The API server's handlers ([heartbeat.ts]): what they answer. *)
Inductive response :=
| Ok
| Status (code : nat).

(** [POST /api/save-credential] *)
Definition post_save_credential (q : Queue) (domain username password : string)
    (hasValidSession : bool) (now : Z) : Queue * response :=
  if bool_decide (domain = EmptyString) || bool_decide (username = EmptyString)
     || bool_decide (password = EmptyString)
  then (q, Status 400)
  else if negb hasValidSession then (q, Status 401)
  else ((queueSave q domain username password now).1, Ok).

(** [POST /api/pending-saves/:id/complete] *)
Definition post_complete (q : Queue) (i : nat) : Queue * response :=
  let '(q, removed) := removeFromQueue q i in
  if removed then (q, Ok) else (q, Status 404).

(** What one poll cycle of the dashboard meets: whether the fetch of the
    pending list and the master key succeed, and which completion requests
    reach the server. *)
Record Network := {
  fetch_pending_ok : bool;
  key_ok : bool;
  complete_delivered : nat → bool
}.

(** What the cycle does for one entry. *)
Inductive event :=
| SaveOk (i : nat)
| SaveThrew (i : nat)
| Acknowledged (i : nat)
| AckLost (i : nat).

(** Requests that reach the queue between and during polls. *)
Inductive op :=
| Enqueue (domain username password : string) (now : Z)
| Complete (i : nat)
| Poll (net : Network).

Section executor.
Context {S : Type}.

(** [saveCredential] for one entry, with the state it acts on. *)
Variable save : S → PendingWrite → S * outcome unit.

(** The body of the [for] loop of [processQueue]. *)
Definition process_item (net : Network) (acc : Queue * S * list event)
    (item : PendingWrite) : Queue * S * list event :=
  let '(q, s, log) := acc in
  match save s item with
  | (s, Throws) => (q, s, log ++ [SaveThrew (id item)])
  | (s, Returns _) =>
    if complete_delivered net (id item)
    then ((post_complete q (id item)).1, s,
          log ++ [SaveOk (id item); Acknowledged (id item)])
    else (q, s, log ++ [SaveOk (id item); AckLost (id item)])
  end.

(** [processQueue] in the dashboard. *)
Definition processQueue (net : Network) (q : Queue) (s : S)
  : Queue * S * list event :=
  if negb (fetch_pending_ok net) then (q, s, []) else
  let pending := getPendingSaves q in
  if bool_decide (0 < length pending) then
    if negb (key_ok net) then (q, s, [])
    else foldl (process_item net) (q, s, []) pending
  else (q, s, []).

Definition step (st : Queue * S) (o : op) : Queue * S :=
  let '(q, s) := st in
  match o with
  | Enqueue domain username password now =>
    ((queueSave q domain username password now).1, s)
  | Complete i => ((post_complete q i).1, s)
  | Poll net => (processQueue net q s).1
  end.

Definition run (ops : list op) (st : Queue * S) : Queue * S := foldl step st ops.

End executor.

#[export] Instance event_eq_dec : EqDecision event.
Proof. solve_decision. Defined.





End PendingQueue.

(** ** A queue and an executor for the examples *)

Module QueueExamples.
Import Vault Sample Examples PendingQueue.

(** The executor over the sample platform: the upload of the entry with
    identifier 1 fails, every other save goes through. *)
Definition sample_save (w : World) (item : PendingWrite) : World * outcome unit :=
  saveCredential w
    {| Vault.domain := PendingQueue.domain item;
       Vault.username := PendingQueue.username item;
       Vault.password := PendingQueue.password item |}
    KM owner
    {| drawn_sessionNonce := "0a0b"; entropy := id item; signer_available := true;
       upload_relay := true;
       walrus_reply := if decide (id item = 1) then None
                       else Some ("blob" ++ pretty (id item))%string |}.

Definition all_ok : Network :=
  {| fetch_pending_ok := true; key_ok := true; complete_delivered := λ _, true |}.

(** Two requests were queued. *)
Definition two_pending : Queue :=
  (run sample_save
     [Enqueue "example.com" "alice" "pw1" 10; Enqueue "example.org" "bob" "pw2" 20]
     (empty, w_empty)).1.

End QueueExamples.

(** ** Rate limiter ([security-utils.ts]) *)

Module RateLimiter.

(** One record of the [attempts] map. *)
Record attempt := {
  count : nat;
  resetTime : Z
}.

(** A [RateLimiter] with its two constructor arguments. *)
Record t := {
  attempts : gmap string attempt;
  maxAttempts : nat;
  windowMs : Z
}.

(** [new RateLimiter(maxAttempts, windowMs)] *)
Definition create (maxAttempts : nat) (windowMs : Z) : t :=
  {| attempts := ∅; maxAttempts := maxAttempts; windowMs := windowMs |}.

Definition authRateLimiter : t := create 3 300000%Z.
Definition apiRateLimiter : t := create 10 60000%Z.

Definition with_attempts (rl : t) (m : gmap string attempt) : t :=
  {| attempts := m; maxAttempts := maxAttempts rl; windowMs := windowMs rl |}.

(** [checkLimit]: returns [true] or throws [RATE_LIMIT_EXCEEDED]. *)
Definition checkLimit (rl : t) (now : Z) (key : string) : t * outcome bool :=
  match attempts rl !! key with
  | None =>
    (with_attempts rl (<[key := {| count := 1; resetTime := now + windowMs rl |}]>
                         (attempts rl)),
     Returns true)
  | Some record =>
    if (resetTime record <? now)%Z then
      (with_attempts rl (<[key := {| count := 1; resetTime := now + windowMs rl |}]>
                           (attempts rl)),
       Returns true)
    else if bool_decide (maxAttempts rl ≤ count record) then (rl, Throws)
    else
      (with_attempts rl (<[key := {| count := S (count record);
                                     resetTime := resetTime record |}]>
                           (attempts rl)),
       Returns true)
  end.

(** [reset] *)
Definition reset (rl : t) (key : string) : t :=
  with_attempts rl (delete key (attempts rl)).

(** [cleanup] *)
Definition cleanup (rl : t) (now : Z) : t :=
  with_attempts rl (filter (λ kv, ¬ (resetTime kv.2 < now)%Z) (attempts rl)).

(** A run of [checkLimit] calls for one key, with what each call did. *)
Fixpoint checkLimits (rl : t) (key : string) (times : list Z) : t * list (outcome bool) :=
  match times with
  | [] => (rl, [])
  | now :: times =>
    let '(rl, r) := checkLimit rl now key in
    let '(rl, rs) := checkLimits rl key times in
    (rl, r :: rs)
  end.

End RateLimiter.

(** ** API server: extension heartbeat and CORS *)

Module ApiServer.

Definition EXTENSION_HEARTBEAT_TIMEOUT : Z := 30000.

(** [POST /api/extension-ping]: the [extensionHeartbeats] map (in insertion
    order) after the handler; [extensionId] is the string that the body
    carries, if it carries one. *)
Definition extension_ping (extensionHeartbeats : list (string * Z))
    (extensionId : option string) (now : Z) : list (string * Z) :=
  let id :=
    match extensionId with
    | Some i => if decide (i = EmptyString) then "default"%string else i
    | None => "default"%string
    end in
  let extensionHeartbeats := Walrus.map_set extensionHeartbeats id now in
  filter (λ entry, ¬ (EXTENSION_HEARTBEAT_TIMEOUT * 2 < now - entry.2)%Z)
    extensionHeartbeats.

(** [!lastPing] on a number that may be undefined. *)
Definition no_ping (lastPing : option Z) : bool :=
  match lastPing with
  | Some t => (t =? 0)%Z
  | None => true
  end.

(** The loop of [GET /api/extension-status]. *)
Definition status_step (now : Z) (acc : bool * option Z) (entry : string * Z)
  : bool * option Z :=
  let '(installed, lastPing) := acc in
  let timestamp := entry.2 in
  let age := (now - timestamp)%Z in
  if (age <? EXTENSION_HEARTBEAT_TIMEOUT)%Z then
    (true,
     if no_ping lastPing || (default 0 lastPing <? timestamp)%Z
     then Some timestamp else lastPing)
  else (installed, lastPing).

(** [GET /api/extension-status]: [installed] and [lastPing || null]. *)
Definition extension_status (extensionHeartbeats : list (string * Z)) (now : Z)
  : bool * option Z :=
  let '(installed, lastPing) := foldl (status_step now) (false, None) extensionHeartbeats in
  (installed, if no_ping lastPing then None else lastPing).

(** [s.startsWith(p)] *)
Fixpoint startsWith (s p : string) {struct p} : bool :=
  match p, s with
  | EmptyString, _ => true
  | String a p', String b s' => bool_decide (a = b) && startsWith s' p'
  | String _ _, EmptyString => false
  end.

(** [toLowerCase] on each character: the capital letters of Latin-1. *)
Fixpoint toLowerCase (s : string) : string :=
  match s with
  | EmptyString => EmptyString
  | String c s' =>
    let n := nat_of_ascii c in
    String (if decide ((65 ≤ n ∧ n ≤ 90) ∨ (192 ≤ n ∧ n ≤ 222 ∧ n ≠ 215))
            then ascii_of_nat (n + 32) else c)
           (toLowerCase s')
  end.

(** The [origin] callback of the CORS middleware: whether the request is
    let through.  [origin] is [None] when the request has no Origin header. *)
Definition cors_allows (isDevelopment : bool) (allowedOrigins : list string)
    (origin : option string) : bool :=
  if isDevelopment then true else
  match origin with
  | None => true
  | Some origin =>
    if decide (origin = EmptyString) then true else
    if startsWith origin "http://localhost:" || startsWith origin "http://127.0.0.1:"
    then true else
    let lowerOrigin := toLowerCase origin in
    if startsWith lowerOrigin "chrome-extension://"
       || startsWith lowerOrigin "moz-extension://"
    then true else
    if bool_decide (0 < length allowedOrigins)
       && existsb (λ allowed, bool_decide (origin = allowed) || startsWith origin allowed)
            allowedOrigins
    then true
    else false
  end.

End ApiServer.

(** * Properties *)

(** ** Typed arrays *)

Section uint8array_facts.
Import Uint8Array.

Lemma to_nat_u8 n : Byte.to_nat (u8 n) = n mod 256.
Proof.
  unfold u8. destruct (Byte.of_nat (n mod 256)) as [b|] eqn:E.
  - simpl. by apply Byte.to_of_nat.
  - apply Byte.of_nat_None_iff in E.
    pose proof (Nat.mod_upper_bound n 256). lia.
Qed.

Lemma to_nat_u8_small n : n ≤ 255 → Byte.to_nat (u8 n) = n.
Proof. intros. rewrite to_nat_u8. apply Nat.mod_small. lia. Qed.

Lemma u8_to_nat b : u8 (Byte.to_nat b) = b.
Proof.
  unfold u8. pose proof (Byte.to_nat_bounded b).
  rewrite Nat.mod_small by lia. by rewrite Byte.of_to_nat.
Qed.

Lemma length_alloc n : length (alloc n) = n.
Proof. apply length_replicate. Qed.

Lemma length_store a i n : length (store a i n) = length a.
Proof. apply length_insert. Qed.

Lemma length_set_from a src off a' :
  set_from a src off = Some a' → length a' = length a.
Proof.
  unfold set_from. case_decide; [|done]. intros [= <-].
  rewrite !length_app, length_take, length_drop. lia.
Qed.


Lemma fill0_all_zero a i b : fill0 a !! i = Some b → b = x00.
Proof. unfold fill0. intros H. by apply lookup_replicate in H as [-> _]. Qed.

End uint8array_facts.

(** ** Envelope codec *)

Section envelope_facts.
Import Uint8Array Envelope.

Lemma store_at_end (pre : list byte) k n :
  store (pre ++ replicate (S k) x00) (length pre) n
  = pre ++ u8 n :: replicate k x00.
Proof.
  unfold store. rewrite insert_app_r_alt by lia.
  by rewrite Nat.sub_diag.
Qed.

Lemma set_from_at_end (pre src : list byte) k :
  set_from (pre ++ replicate (length src + k) x00) src (length pre)
  = Some (pre ++ src ++ replicate k x00).
Proof.
  unfold set_from. rewrite decide_True.
  2:{ rewrite length_app, length_replicate. lia. }
  f_equal. rewrite take_app_length. f_equal. f_equal.
  rewrite drop_app_ge by lia.
  replace (length pre + length src - length pre) with (length src) by lia.
  rewrite drop_replicate. f_equal. lia.
Qed.

Lemma store_into (a pre : list byte) k i n :
  a = pre ++ replicate (S k) x00 → i = length pre →
  store a i n = pre ++ u8 n :: replicate k x00.
Proof. intros -> ->. apply store_at_end. Qed.

Lemma set_from_into (a pre src : list byte) k off :
  a = pre ++ replicate (length src + k) x00 → off = length pre →
  set_from a src off = Some (pre ++ src ++ replicate k x00).
Proof. intros -> ->. apply set_from_at_end. Qed.

(** The encoder never raises and produces exactly the documented layout. *)
Lemma encode_layout sn iv ct :
  encode sn iv ct = Some (u8 (length sn) :: sn ++ u8 (length iv) :: iv ++ ct).
Proof.
  unfold encode, alloc.
  rewrite (store_into _ [] (length sn + S (length iv + length ct)));
    [|simpl; f_equal; f_equal; lia|done].
  rewrite (set_from_into _ [u8 (length sn)] sn (S (length iv + length ct)));
    [|done|done].
  cbn [mbind option_bind].
  rewrite (store_into _ ([u8 (length sn)] ++ sn) (length iv + length ct));
    [|done|rewrite length_app; simpl; lia].
  rewrite (set_from_into _ (([u8 (length sn)] ++ sn) ++ [u8 (length iv)]) iv (length ct));
    [|by rewrite <- !app_assoc|rewrite !length_app; simpl; lia].
  cbn [mbind option_bind].
  rewrite (set_from_into _ ((([u8 (length sn)] ++ sn) ++ [u8 (length iv)]) ++ iv) ct 0);
    [|by rewrite Nat.add_0_r, <- !app_assoc|rewrite !length_app; simpl; lia].
  simpl. rewrite app_nil_r, <- !app_assoc. done.
Qed.

Lemma slice_middle (pre mid post : list byte) b e :
  b = length pre → e = length pre + length mid →
  slice (pre ++ mid ++ post) b e = mid.
Proof.
  intros -> ->. unfold slice. rewrite drop_app_length.
  replace (length pre + length mid - length pre) with (length mid) by lia.
  apply take_app_length.
Qed.

Lemma slice_tail (pre post : list byte) b e :
  b = length pre → e = length (pre ++ post) →
  slice (pre ++ post) b e = post.
Proof.
  intros -> ->. unfold slice. rewrite drop_app_length.
  apply take_ge. rewrite length_app. lia.
Qed.

(** Decoding a buffer of the documented layout, as soon as it has the three
    bytes the reader asks for. *)
Lemma decode_layout b0 b1 sn iv ct :
  Byte.to_nat b0 = length sn →
  Byte.to_nat b1 = length iv →
  1 ≤ length sn + length iv + length ct →
  decode (b0 :: sn ++ b1 :: iv ++ ct) = inr (Fields sn iv ct).
Proof.
  intros Hsn Hiv Hlen. unfold decode.
  assert (Hl : length (b0 :: sn ++ b1 :: iv ++ ct)
               = 2 + length sn + length iv + length ct).
  { simpl. rewrite length_app. simpl. rewrite length_app. lia. }
  rewrite decide_False by lia.
  cbn [lookup list_lookup]. rewrite Hsn.
  rewrite decide_False by lia.
  assert (Hiv_at : (b0 :: sn ++ b1 :: iv ++ ct) !! (0 + 1 + length sn) = Some b1).
  { replace (0 + 1 + length sn) with (S (length sn)) by lia. simpl.
    by rewrite list_lookup_middle. }
  rewrite Hiv_at, Hiv.
  rewrite decide_False by lia.
  f_equal. f_equal.
  - apply (slice_middle [b0] sn); simpl; lia.
  - assert (E : b0 :: sn ++ b1 :: iv ++ ct = (b0 :: sn ++ [b1]) ++ iv ++ ct).
    { simpl. by rewrite <- app_assoc. }
    rewrite E. apply slice_middle; simpl; rewrite length_app; simpl; lia.
  - assert (E : b0 :: sn ++ b1 :: iv ++ ct = (b0 :: sn ++ b1 :: iv) ++ ct).
    { simpl. rewrite <- app_assoc. done. }
    rewrite E. apply slice_tail; [|done].
    simpl; rewrite length_app; simpl; lia.
Qed.

(** A successful decode splits the buffer exactly: the three fields and the
    two length bytes account for every byte, in order. *)
Lemma decode_inv blob sn iv ct :
  decode blob = inr (Fields sn iv ct) →
  ∃ b0 b1, blob = b0 :: sn ++ b1 :: iv ++ ct
           ∧ Byte.to_nat b0 = length sn ∧ Byte.to_nat b1 = length iv.
Proof.
  unfold decode. case_decide as H3; [done|].
  destruct blob as [|b0 rest]; [done|]. cbn [lookup list_lookup].
  case_decide as Hn; [done|].
  replace (0 + 1 + Byte.to_nat b0) with (S (Byte.to_nat b0)) by lia.
  cbn [lookup list_lookup].
  destruct (rest !! Byte.to_nat b0) as [b1|] eqn:Hb1; [|done].
  case_decide as Hi; [done|].
  apply list_elem_of_split_length in Hb1 as (pre & post & -> & Hpre).
  set (i := Byte.to_nat b1) in *. rewrite Hpre in *.
  assert (Hpost : i ≤ length post).
  { simpl in Hi. rewrite length_app in Hi. simpl in Hi. lia. }
  pose (iv0 := take i post). pose (ct0 := drop i post).
  assert (Epost : post = iv0 ++ ct0) by (symmetry; apply take_drop).
  assert (Hti : length iv0 = i) by (unfold iv0; rewrite length_take; lia).
  clearbody iv0 ct0. subst post.
  assert (E1 : slice (b0 :: pre ++ b1 :: iv0 ++ ct0) (0 + 1) (S (length pre)) = pre).
  { apply (slice_middle [b0] pre); simpl; lia. }
  assert (E2 : slice (b0 :: pre ++ b1 :: iv0 ++ ct0) (S (length pre) + 1)
                 (S (length pre) + 1 + i) = iv0).
  { assert (E : b0 :: pre ++ b1 :: iv0 ++ ct0 = (b0 :: pre ++ [b1]) ++ iv0 ++ ct0).
    { simpl. by rewrite <- app_assoc. }
    rewrite E. apply slice_middle; simpl; rewrite length_app; simpl; lia. }
  assert (E3 : slice (b0 :: pre ++ b1 :: iv0 ++ ct0) (S (length pre) + 1 + i)
                 (length (b0 :: pre ++ b1 :: iv0 ++ ct0)) = ct0).
  { assert (E : b0 :: pre ++ b1 :: iv0 ++ ct0 = (b0 :: pre ++ b1 :: iv0) ++ ct0).
    { simpl. by rewrite <- app_assoc. }
    rewrite E. apply slice_tail; [|done].
    simpl; rewrite length_app; simpl; lia. }
  rewrite E1, E2, E3. intros [= <- <- <-].
  exists b0, b1. done.
Qed.

End envelope_facts.

(** ** Reading from the vault *)

Section vault_read_facts.
Import Json Vault.
Context `{Platform}.

Lemma nonempty_string_Some x s :
  nonempty_string x = Some s ↔ x = JString s ∧ s ≠ EmptyString.
Proof.
  destruct x; simpl; try (split; [done|intros [? _]; done]).
  case_decide; split; try done.
  - intros [[= ->] ?]. done.
  - intros [= <-]. done.
  - intros [[= ->] _]. done.
Qed.

Lemma every_nonempty_string_Some xs ids :
  every_nonempty_string xs = Some ids
  ↔ xs = JString <$> ids ∧ Forall (λ s, s ≠ EmptyString) ids.
Proof.
  unfold every_nonempty_string. revert ids.
  induction xs as [|x xs IH]; intros ids; simpl.
  - split.
    + intros [= <-]. done.
    + intros [E _]. destruct ids; [done|discriminate E].
  - split.
    + intros Hm. destruct (nonempty_string x) as [s|] eqn:Hs; [|done].
      simpl in Hm. destruct (mapM nonempty_string xs) as [ss|] eqn:Hss; [|done].
      simpl in Hm. injection Hm as <-.
      apply nonempty_string_Some in Hs as [-> Hne].
      destruct (proj1 (IH ss) eq_refl) as [-> Hall].
      split; [done|]. by constructor.
    + intros [E Hall]. destruct ids as [|s ss]; [discriminate E|].
      injection E as -> ->. inversion Hall as [|? ? Hne Hall']; subst.
      rewrite (proj2 (nonempty_string_Some (JString s) s)) by done. simpl.
      rewrite (proj2 (IH ss)) by done. done.
Qed.

Lemma foldl_read_blob {C} (mk : value → string → string → C) KM blobMap credentials log :
  foldl (read_blob mk KM) (credentials, log) blobMap
  = (credentials ++ omap (blob_result mk KM) blobMap,
     log ++ (blob_event KM <$> blobMap)).
Proof.
  revert credentials log. induction blobMap as [|[blobId blobData] rest IH];
    intros credentials log; simpl.
  - by rewrite !app_nil_r.
  - unfold blob_result at 1, blob_event at 1. simpl.
    destruct (open_blob KM blobData); rewrite IH; simpl;
      by rewrite <- ?app_assoc.
Qed.

Lemma read_current_result {C} (mk : value → string → string → C) w KM blobIds :
  (read_current mk w KM blobIds).1
  = Returns (match omap (blob_result mk KM) (Walrus.retrieveBlobs w blobIds) with
             | [] => None
             | decoded => Some decoded
             end).
Proof.
  unfold read_current. case_decide as Hids.
  { subst. done. }
  case_decide as Hmap.
  { destruct (Walrus.retrieveBlobs w blobIds); [done|discriminate Hmap]. }
  rewrite foldl_read_blob. simpl.
  destruct (omap _ _); simpl; done.
Qed.

End vault_read_facts.

(** ** The blob store *)

Section blob_store_facts.


Lemma elem_of_map_set {V} (m : list (string * V)) k v :
  (k, v) ∈ Walrus.map_set m k v.
Proof.
  induction m as [|[k' v'] rest IH]; simpl.
  - set_solver.
  - case_decide; set_solver.
Qed.



End blob_store_facts.

(** ** Reading a record that is found *)

Section vault_found_facts.
Import Json Vault.
Context `{Platform}.

Lemma found_record w address fp info :
  Ledger.getCredentialInfoFromDynamicField w address fp = Some info →
  Ledger.getUserVaultId w address = Some address
  ∧ Ledger.checkCredentialExists w address fp = true.
Proof.
  intros Hi. unfold Ledger.getUserVaultId, Ledger.checkCredentialExists.
  rewrite Hi. split; [|by apply bool_decide_eq_true].
  unfold Ledger.getCredentialInfoFromDynamicField in Hi.
  destruct (vaults w !! address); [done|discriminate Hi].
Qed.

Lemma getCredential_found w domain KM address info :
  address ≠ EmptyString →
  Ledger.getCredentialInfoFromDynamicField w address (hashDomain domain KM) = Some info →
  getCredential w domain KM address
  = match parse_blob_ids info with
    | None =>
      match open_legacy KM info with
      | Throws => (Throws, [LogLegacyFallback])
      | Returns (_, username, password) =>
        (Returns (Some [Build_Credential domain username password]), [LogLegacyFallback])
      end
    | Some blobIds =>
      read_current (λ _ username password, Build_Credential domain username password)
        w KM blobIds
    end.
Proof.
  intros Ha Hi. destruct (found_record _ _ _ _ Hi) as [Hv He].
  unfold getCredential. rewrite Hv, decide_False by done. by rewrite He, Hi.
Qed.

Lemma getCredentialByDomainHash_found w fp KM address info :
  address ≠ EmptyString →
  Ledger.getCredentialInfoFromDynamicField w address fp = Some info →
  getCredentialByDomainHash w fp KM address
  = match parse_blob_ids info with
    | None =>
      match open_legacy KM info with
      | Throws => (Throws, [LogLegacyFallback])
      | Returns (credentialData, username, password) =>
        (Returns (Some [Build_HashCredential (domain_or_unknown credentialData)
                          username password]), [LogLegacyFallback])
      end
    | Some blobIds =>
      read_current (λ credentialData username password,
                      Build_HashCredential (domain_or_unknown credentialData)
                        username password) w KM blobIds
    end.
Proof.
  intros Ha Hi. destruct (found_record _ _ _ _ Hi) as [Hv He].
  unfold getCredentialByDomainHash. rewrite Hv, decide_False by done. by rewrite He, Hi.
Qed.

End vault_found_facts.

(** ** Saving to the vault *)

Section vault_save_facts.
Import Json Vault.
Context `{Platform}.



Lemma lookup_after_write w address fp i :
  Ledger.getCredentialInfoFromDynamicField (Ledger.writeRecord w address fp i) address fp
  = Some i.
Proof.
  unfold Ledger.getCredentialInfoFromDynamicField, Ledger.writeRecord. simpl.
  rewrite lookup_insert_eq. simpl. by rewrite lookup_insert_eq.
Qed.



End vault_save_facts.

(** ** Claims about the envelope codec *)

Section envelope_claims.
Import Uint8Array Envelope.

(** The reader never reads an element outside the buffer, whatever the
    buffer. *)
Lemma decode_never_out_of_bounds blob : decode blob ≠ inl ReadOutOfBounds.
Proof.
  unfold decode. case_decide as H3; [done|].
  destruct blob as [|b0 rest]; [simpl in H3; lia|]. cbn [lookup list_lookup].
  case_decide as Hn; [done|].
  destruct (_ !! _) as [b1|] eqn:Hb1.
  - by case_decide.
  - apply lookup_ge_None in Hb1. lia.
Qed.

(** C1 (as amended): for a session nonce and an IV of at most 255 bytes each,
    and as long as the three fields are not all empty, unpacking the packed
    envelope gives back exactly the nonce, the IV and the cipher text. *)
Theorem envelope_round_trip sn iv ct :
  length sn ≤ 255 → length iv ≤ 255 →
  1 ≤ length sn + length iv + length ct →
  roundtrip sn iv ct = Some (inr (Fields sn iv ct)).
Proof.
  intros Hsn Hiv Hlen. unfold roundtrip. rewrite encode_layout. simpl. f_equal.
  apply decode_layout; [by apply to_nat_u8_small..|done].
Qed.

Lemma envelope_round_trip_witness :
  roundtrip [x01; x02] [x03] [x04; x05]
  = Some (inr (Fields [x01; x02] [x03] [x04; x05])).
Proof. apply envelope_round_trip; simpl; lia. Defined.

(** C1 as stated fails: with an empty nonce, an empty IV and an empty cipher
    text the envelope is the two bytes [00 00], which the reader rejects as
    shorter than three bytes. *)
Lemma envelope_round_trip_empty_fields :
  ¬ (∀ sn iv ct, length sn ≤ 255 → length iv ≤ 255 →
       roundtrip sn iv ct = Some (inr (Fields sn iv ct))).
Proof.
  intros Hall. specialize (Hall [] [] []).
  assert (E : roundtrip [] [] [] = Some (inl BlobTooShort)) by reflexivity.
  rewrite E in Hall. simpl in Hall.
  specialize (Hall ltac:(lia) ltac:(lia)). discriminate Hall.
Qed.

(** C4: a buffer shorter than its two header bytes plus the nonce and IV
    lengths it declares is rejected; the rejection carries no field and is
    never the result of a read outside the buffer. *)
Theorem decode_truncated_fails blob :
  truncated blob = true →
  ∃ r, decode blob = inl r ∧ r ≠ ReadOutOfBounds.
Proof.
  intros Ht.
  destruct (decode blob) as [r|[sn iv ct]] eqn:E.
  - exists r. split; [done|]. intros ->. by apply decode_never_out_of_bounds in E.
  - exfalso. apply decode_inv in E as (b0 & b1 & -> & H0 & H1).
    unfold truncated, declared_iv_len, declared_nonce_len in Ht.
    cbn [lookup list_lookup fmap option_fmap option_map mbind option_bind] in Ht.
    rewrite H0 in Ht. simpl in Ht.
    rewrite list_lookup_middle in Ht by done. simpl in Ht.
    apply bool_decide_eq_true in Ht.
    rewrite length_app in Ht. simpl in Ht. rewrite length_app in Ht. lia.
Qed.

Lemma decode_truncated_fails_witness :
  ∃ r, decode [x02; x0a; x0b; x05; x01] = inl r ∧ r ≠ ReadOutOfBounds.
Proof. apply decode_truncated_fails. reflexivity. Defined.

(** C10: when the nonce or the IV is longer than 255 bytes the encoder still
    returns a blob, whose two length bytes hold the lengths modulo 256; at
    least one of them differs from the real length and the reader does not
    give back the fields that were packed. *)
Theorem encode_length_byte_wraps sn iv ct :
  255 < length sn ∨ 255 < length iv →
  ∃ blob,
    encode sn iv ct = Some blob
    ∧ Byte.to_nat <$> blob !! 0 = Some (length sn mod 256)
    ∧ Byte.to_nat <$> blob !! (1 + length sn) = Some (length iv mod 256)
    ∧ (length sn mod 256 ≠ length sn ∨ length iv mod 256 ≠ length iv)
    ∧ decode blob ≠ inr (Fields sn iv ct).
Proof.
  intros Hbig. eexists. split; [apply encode_layout|].
  split; [simpl; by rewrite to_nat_u8|].
  split; [simpl; rewrite list_lookup_middle by done; simpl; by rewrite to_nat_u8|].
  assert (Hmod : ∀ n, 255 < n → n mod 256 ≠ n).
  { intros n Hn E. pose proof (Nat.mod_upper_bound n 256). lia. }
  split; [destruct Hbig; [left|right]; by apply Hmod|].
  intros E. apply decode_inv in E as (b0 & b1 & E & H0 & H1).
  injection E as <- E. apply app_inv_head in E. injection E as <-.
  rewrite to_nat_u8 in H0, H1. destruct Hbig as [Hb|Hb]; eapply Hmod; eauto.
Qed.

Lemma encode_length_byte_wraps_witness :
  ∃ blob,
    encode (replicate 256 x01) [] [x07] = Some blob
    ∧ Byte.to_nat <$> blob !! 0 = Some (length (replicate 256 x01) mod 256)
    ∧ Byte.to_nat <$> blob !! (1 + length (replicate 256 x01))
      = Some (length (@nil byte) mod 256)
    ∧ (length (replicate 256 x01) mod 256 ≠ length (replicate 256 x01)
       ∨ length (@nil byte) mod 256 ≠ length (@nil byte))
    ∧ decode blob ≠ inr (Fields (replicate 256 x01) [] [x07]).
Proof. apply encode_length_byte_wraps. left. rewrite length_replicate. lia. Defined.

End envelope_claims.

(** ** Claims about the vault orchestrator *)

Section vault_claims.
Import Json Vault.
Context `{Platform}.

(** C3 (as amended): a record that is found is read as current exactly when
    its payload parses as a JSON array whose elements are all non-empty
    strings, the empty array included; both read functions then take the
    current path with those ids.  In every other case, a payload that does
    not parse included, both take the legacy path, which decrypts the
    on-chain bytes with the record's own nonces; the classification itself
    raises nothing, an exception can only come from the legacy decryption. *)
Theorem format_detection w domain KM address info :
  address ≠ EmptyString →
  Ledger.getCredentialInfoFromDynamicField w address (hashDomain domain KM) = Some info →
  (∀ blobIds,
     parse_blob_ids info = Some blobIds
     ↔ JSON_parse (TextDecoder_decode (data info)) = Some (JArray (JString <$> blobIds))
       ∧ Forall (λ s, s ≠ EmptyString) blobIds)
  ∧ match parse_blob_ids info with
    | Some blobIds =>
      getCredential w domain KM address
      = read_current (λ _ username password, Build_Credential domain username password)
          w KM blobIds
      ∧ getCredentialByDomainHash w (hashDomain domain KM) KM address
        = read_current (λ credentialData username password,
                          Build_HashCredential (domain_or_unknown credentialData)
                            username password) w KM blobIds
    | None =>
      getCredential w domain KM address
      = (match open_legacy KM info with
         | Throws => Throws
         | Returns (_, username, password) =>
           Returns (Some [Build_Credential domain username password])
         end, [LogLegacyFallback])
      ∧ getCredentialByDomainHash w (hashDomain domain KM) KM address
        = (match open_legacy KM info with
           | Throws => Throws
           | Returns (credentialData, username, password) =>
             Returns (Some [Build_HashCredential (domain_or_unknown credentialData)
                              username password])
           end, [LogLegacyFallback])
    end.
Proof.
  intros Ha Hi. split.
  - intros blobIds. unfold parse_blob_ids.
    destruct (JSON_parse _) as [parsed|]; [|split; [done|intros [? _]; done]].
    destruct parsed as [| | | |xs|];
      try (split; [done|intros [[=] _]]).
    rewrite every_nonempty_string_Some. split.
    + intros [-> ?]. done.
    + intros [[= ->] ?]. done.
  - rewrite (getCredential_found _ _ _ _ _ Ha Hi),
            (getCredentialByDomainHash_found _ _ _ _ _ Ha Hi).
    destruct (parse_blob_ids info); [done|].
    destruct (open_legacy KM info) as [|[[? ?] ?]]; done.
Qed.

(** C5 (as amended): on the current path every retrieved blob leaves one
    console message, the blobs that fail to unpack, decrypt or parse are left
    out, and get returns the credentials of the others in order, never an
    exception; when none is left it returns null, the value it also returns
    when there is no record. *)
Theorem partial_failure_recovery w domain KM address info blobIds :
  address ≠ EmptyString →
  Ledger.getCredentialInfoFromDynamicField w address (hashDomain domain KM) = Some info →
  parse_blob_ids info = Some blobIds →
  let mk := λ (_ : value) username password, Build_Credential domain username password in
  let blobMap := Walrus.retrieveBlobs w blobIds in
  let decoded := omap (blob_result mk KM) blobMap in
  (getCredential w domain KM address).1
  = Returns (match decoded with [] => None | _ => Some decoded end)
  ∧ (blobMap ≠ [] →
     (getCredential w domain KM address).2
     = (blob_event KM <$> blobMap)
       ++ [match decoded with
           | [] => LogNoValidCredentials
           | _ => LogReturning (length decoded)
           end]).
Proof.
  intros Ha Hi Hp mk blobMap decoded.
  rewrite (getCredential_found _ _ _ _ _ Ha Hi), Hp.
  split.
  { rewrite read_current_result. subst decoded blobMap mk. by destruct (omap _ _). }
  intros Hne. unfold read_current.
  case_decide as Hids.
  { subst. done. }
  fold blobMap. case_decide as Hmap.
  { destruct blobMap; [done|discriminate Hmap]. }
  rewrite foldl_read_blob. subst decoded. simpl.
  destruct (omap _ _); done.
Qed.


End vault_claims.

(** ** The vault claims on concrete inputs *)

Section vault_examples.
Import Json Vault Sample Examples.

(** [format_detection] at a record that names two blobs. *)
Lemma format_detection_witness :
  JSON_parse (TextDecoder_decode (data (record two_blob_text)))
  = Some (JArray (JString <$> ["blobA"; "blobB"]))
  ∧ Forall (λ s, s ≠ EmptyString) ["blobA"; "blobB"].
Proof.
  refine (proj1 (proj1 (format_detection (H:=platform) w_one_bad "example.com" KM owner
                          (record two_blob_text) _ _)
                   ["blobA"; "blobB"]) _).
  - discriminate.
  - vm_compute. reflexivity.
  - vm_compute. reflexivity.
Defined.

(** C3 as stated fails: a payload that is the JSON text of the empty array is
    read as current (the [try] block ends without an exception, with no ids)
    although it is not a non-empty array; get then returns null and the
    legacy path is not tried. *)
Lemma format_detection_empty_array :
  let info := empty_array_record in
  ¬ (is_Some (parse_blob_ids info)
     ↔ ∃ blobIds, blobIds ≠ []
         ∧ JSON_parse (TextDecoder_decode (data info)) = Some (JArray (JString <$> blobIds))
         ∧ Forall (λ s, s ≠ EmptyString) blobIds).
Proof.
  intros info [Hcur _].
  assert (Hparsed : parse_blob_ids info = Some []) by (vm_compute; reflexivity).
  destruct Hcur as (blobIds & Hne & Hp & _).
  { rewrite Hparsed. by eexists. }
  assert (Harr : JSON_parse (TextDecoder_decode (data info)) = Some (JArray []))
    by (vm_compute; reflexivity).
  rewrite Harr in Hp. injection Hp as Hp. by destruct blobIds.
Qed.

(** [partial_failure_recovery] at a record with one truncated blob and one
    good blob: the good one is returned. *)
Lemma partial_failure_recovery_witness :
  (getCredential w_one_bad "example.com" KM owner).1 = Returns (Some [bob])
  ∧ (getCredential w_one_bad "example.com" KM owner).2
    = [WarnBlob "blobA" Envelope.BlobTooShort; LogDecrypted "blobB"; LogReturning 1].
Proof.
  pose proof (partial_failure_recovery (H:=platform) w_one_bad "example.com" KM owner
                (record two_blob_text) ["blobA"; "blobB"]
                ltac:(discriminate) ltac:(vm_compute; reflexivity)
                ltac:(vm_compute; reflexivity)) as [Hres Hlog].
  split.
  - rewrite Hres. vm_compute. reflexivity.
  - rewrite Hlog; [vm_compute; reflexivity|]. vm_compute. discriminate.
Defined.

(** C5 as stated fails: a record whose only blob cannot be decoded and a
    vault without a record make get return the same value, null. *)
Lemma zero_decodable_same_as_absent :
  (getCredential w_undecodable "example.com" KM owner).1 = Returns None
  ∧ (getCredential w_absent "example.com" KM owner).1 = Returns None.
Proof. split; vm_compute; reflexivity. Qed.



End vault_examples.

(** ** The master-key manager *)

Section key_manager_clear.
Import KeyManager.

Lemma secureClearKey_state rt :
  state (secureClearKey rt)
  = set_clearanceTimer None (set_masterKey None (state rt)).
Proof.
  unfold secureClearKey. destruct rt as [[mk il pr la ca ac lt ct] h t d f]. simpl.
  destruct mk, ct; reflexivity.
Qed.

Lemma secureClearKey_heap rt :
  heap (secureClearKey rt)
  = match masterKey (state rt) with
    | Some key => alter Uint8Array.fill0 key (heap rt)
    | None => heap rt
    end.
Proof.
  unfold secureClearKey. destruct rt as [[mk il pr la ca ac lt ct] h t d f]. simpl.
  destruct mk, ct; reflexivity.
Qed.

Lemma secureClearKey_timers rt :
  timers (secureClearKey rt)
  = match clearanceTimer (state rt) with
    | Some timer => delete timer (timers rt)
    | None => timers rt
    end.
Proof.
  unfold secureClearKey. destruct rt as [[mk il pr la ca ac lt ct] h t d f]. simpl.
  destruct mk, ct; reflexivity.
Qed.

Lemma secureClearKey_derivations rt :
  derivations (secureClearKey rt) = derivations rt ∧ fresh (secureClearKey rt) = fresh rt.
Proof.
  unfold secureClearKey. destruct rt as [[mk il pr la ca ac lt ct] h t d f]. simpl.
  destruct mk, ct; done.
Qed.

Lemma clearCache_state rt :
  state (clearCache rt)
  = {| masterKey := None; isLoading := false; promise := None; lastAddress := None;
       createdAt := None; accessCount := 0; lastAccessTime := None;
       clearanceTimer := None |}.
Proof. unfold clearCache. simpl. by rewrite secureClearKey_state. Qed.

Lemma clearCache_derivations rt :
  derivations (clearCache rt) = derivations rt.
Proof. unfold clearCache. simpl. apply secureClearKey_derivations. Qed.

Lemma shouldClearKey_no_key rt now :
  masterKey (state rt) = None → shouldClearKey rt now = false.
Proof. intros E. unfold shouldClearKey. by rewrite E. Qed.


End key_manager_clear.

Section key_manager_timers.
Import KeyManager.

Lemma tracked_secureClearKey rt :
  timers_tracked rt →
  timers_tracked (secureClearKey rt)
  ∧ ∀ t, timers (secureClearKey rt) !! t ≠ Some CheckClearance.
Proof.
  intros [H1 H2].
  assert (Hno : ∀ t, timers (secureClearKey rt) !! t ≠ Some CheckClearance).
  { intros t. rewrite secureClearKey_timers.
    destruct (clearanceTimer (state rt)) as [timer|] eqn:E.
    - destruct (decide (t = timer)) as [->|Hne].
      + by rewrite lookup_delete_eq.
      + rewrite lookup_delete_ne by done. intros Ht. apply H2 in Ht. congruence.
    - intros Ht. apply H2 in Ht. congruence. }
  split; [|done]. split.
  - intros t cb. rewrite secureClearKey_timers.
    destruct (secureClearKey_derivations rt) as [_ ->].
    destruct (clearanceTimer (state rt)) as [timer|]; [|apply H1].
    intros Ht. apply lookup_delete_Some in Ht as [_ Ht]. by eapply H1.
  - intros t Ht. by apply Hno in Ht.
Qed.

Lemma clearCache_timers rt : timers (clearCache rt) = timers (secureClearKey rt).
Proof. reflexivity. Qed.

Lemma clearCache_fresh rt : fresh (clearCache rt) = fresh rt.
Proof. unfold clearCache. simpl. apply secureClearKey_derivations. Qed.

Lemma tracked_clearCache rt :
  timers_tracked rt →
  timers_tracked (clearCache rt)
  ∧ ∀ t, timers (clearCache rt) !! t ≠ Some CheckClearance.
Proof.
  intros Htr. destruct (tracked_secureClearKey rt Htr) as [[H1 H2] Hno].
  split; [|done]. split.
  - intros t cb. rewrite clearCache_timers, clearCache_fresh.
    destruct (secureClearKey_derivations rt) as [_ <-]. apply H1.
  - intros t Ht. rewrite clearCache_timers in Ht. by apply Hno in Ht.
Qed.

Lemma tracked_setupClearanceTimer rt :
  timers_tracked rt → timers_tracked (setupClearanceTimer rt).
Proof.
  intros [H1 H2]. unfold setupClearanceTimer.
  destruct rt as [s h t d f]. simpl in *.
  destruct (clearanceTimer s) as [timer|] eqn:E; simpl; split; simpl.
  - intros t' cb Ht. apply lookup_insert_Some in Ht as [[<- _]|[_ Ht]]; [lia|].
    apply lookup_delete_Some in Ht as [_ Ht]. apply H1 in Ht. lia.
  - intros t' Ht. apply lookup_insert_Some in Ht as [[<- _]|[_ Ht]]; [done|].
    apply lookup_delete_Some in Ht as [Hne Ht]. apply H2 in Ht. congruence.
  - intros t' cb Ht. apply lookup_insert_Some in Ht as [[<- _]|[_ Ht]]; [lia|].
    apply H1 in Ht. lia.
  - intros t' Ht. apply lookup_insert_Some in Ht as [[<- _]|[_ Ht]]; [done|].
    apply H2 in Ht. congruence.
Qed.

Lemma tracked_recordAccess rt now :
  timers_tracked rt → timers_tracked (recordAccess rt now).
Proof.
  intros [H1 H2]. unfold recordAccess.
  destruct (shouldClearKey _ now); [|by split].
  destruct rt as [s h t d f]. simpl in *. split; simpl.
  - intros t' cb Ht. apply lookup_insert_Some in Ht as [[<- _]|[_ Ht]]; [lia|].
    apply H1 in Ht. lia.
  - intros t' Ht. apply lookup_insert_Some in Ht as [[_ ?]|[_ Ht]]; [done|].
    by apply H2.
Qed.

Lemma tracked_fresh rt s' f' h' d' :
  fresh rt ≤ f' → clearanceTimer s' = clearanceTimer (state rt) →
  timers_tracked rt →
  timers_tracked {| state := s'; heap := h'; timers := timers rt;
                    derivations := d'; fresh := f' |}.
Proof.
  intros Hf Hs [H1 H2]. split; simpl.
  - intros t cb Ht. apply H1 in Ht. lia.
  - intros t Ht. rewrite Hs. by apply H2.
Qed.

Lemma tracked_getMasterKey rt now address :
  timers_tracked rt → timers_tracked (getMasterKey rt now address).1.
Proof.
  intros Htr. unfold getMasterKey.
  set (rt0 := if shouldClearKey rt now then clearCache rt else rt).
  assert (Htr0 : timers_tracked rt0).
  { unfold rt0. destruct (shouldClearKey rt now); [by apply tracked_clearCache|done]. }
  clearbody rt0.
  destruct (_ && _).
  - simpl. by apply tracked_recordAccess.
  - destruct (if isLoading (state rt0) && _ then _ else _); [done|].
    set (rt1 := if bool_decide (lastAddress (state rt0) ≠ Some address)
                then clearCache rt0 else rt0).
    assert (Htr1 : timers_tracked rt1).
    { unfold rt1. destruct (bool_decide _); [by apply tracked_clearCache|done]. }
    clearbody rt1. simpl.
    apply (tracked_fresh rt1); [simpl; lia|done|done].
Qed.

Lemma tracked_on_fulfilled rt now key :
  timers_tracked rt → timers_tracked (on_fulfilled rt now key).
Proof.
  intros Htr. unfold on_fulfilled. simpl.
  apply tracked_recordAccess, tracked_setupClearanceTimer.
  apply (tracked_fresh rt); [simpl; lia|done|done].
Qed.

Lemma tracked_setMasterKey rt now address key :
  timers_tracked rt → timers_tracked (setMasterKey rt now address key).
Proof.
  intros Htr. unfold setMasterKey.
  apply tracked_secureClearKey in Htr as [Htr _].
  set (rt0 := secureClearKey rt) in *. clearbody rt0. simpl.
  apply tracked_setupClearanceTimer.
  apply (tracked_fresh rt0); [simpl; lia|done|done].
Qed.

Lemma tracked_fire rt now timer :
  timers_tracked rt → timers_tracked (fire rt now timer).
Proof.
  intros Htr. unfold fire. destruct (timers rt !! timer) as [cb|]; [|done].
  assert (Htr0 : timers_tracked (clearTimeout timer rt)).
  { destruct Htr as [H1 H2]. split; simpl.
    - intros t cb' Ht. apply lookup_delete_Some in Ht as [_ Ht]. by eapply H1.
    - intros t Ht. apply lookup_delete_Some in Ht as [_ Ht]. by apply H2. }
  set (rt0 := clearTimeout timer rt) in *. clearbody rt0.
  destruct cb.
  - destruct (shouldClearKey rt0 now);
      [by apply tracked_clearCache|by apply tracked_setupClearanceTimer].
  - by apply tracked_clearCache.
Qed.

Lemma timers_tracked_initial : timers_tracked initial.
Proof. split; intros t; simpl; intros; by rewrite lookup_empty in *. Qed.

Lemma timers_tracked_act rt a : timers_tracked rt → timers_tracked (act rt a).
Proof.
  intros Htr. destruct a; simpl.
  - by apply tracked_getMasterKey.
  - by apply tracked_on_fulfilled.
  - by apply (tracked_fresh rt).
  - by apply tracked_setMasterKey.
  - by apply tracked_fire.
  - by apply tracked_clearCache.
Qed.

(** In every state the manager can reach, after clearCache no periodic
    clearance check is pending. *)
Lemma clearCache_cancels_periodic_check (actions : list action) t :
  timers (clearCache (foldl act initial actions)) !! t ≠ Some CheckClearance.
Proof.
  apply tracked_clearCache.
  induction actions as [|a actions IH] using rev_ind; [apply timers_tracked_initial|].
  rewrite foldl_app. simpl. by apply timers_tracked_act.
Qed.

(** What clearCache does not cancel is the zero-delay timeout that
    recordAccess schedules when the access count passes its maximum: it is
    not recorded in the state and calls clearCache once more when it fires. *)
Example next_tick_timeout_outlives_clearCache :
  accessCount (state worn_example) = 1001
  ∧ timers worn_example !! 4 = Some ClearOnNextTick
  ∧ timers (clearCache worn_example) !! 4 = Some ClearOnNextTick.
Proof. vm_compute. done. Qed.

End key_manager_timers.

Section key_manager_facts.
Import KeyManager.



Lemma getMasterKey_cases rt now address rt' r :
  getMasterKey rt now address = (rt', r) →
  match r with
  | Cached _ => derivations rt' = derivations rt
  | InFlight p => rt' = rt ∧ in_flight rt address p
  | Started p => in_flight rt' address p
                 ∧ derivations rt' = derivations rt ++ [(p, address)]
  end.
Proof.
  unfold getMasterKey.
  set (rt0 := if shouldClearKey rt now then clearCache rt else rt).
  assert (Hd0 : derivations rt0 = derivations rt).
  { unfold rt0. destruct (shouldClearKey rt now); [apply clearCache_derivations|done]. }
  destruct (bool_decide (is_Some (masterKey (state rt0)))
            && bool_decide (lastAddress (state rt0) = Some address)) eqn:Hcached.
  - intros [= <- <-]. rewrite <- Hd0. unfold recordAccess.
    destruct (shouldClearKey (assign _ _) now); simpl; done.
  - assert (Hnokey : lastAddress (state rt0) = Some address →
                     masterKey (state rt0) = None).
    { intros Ha. apply andb_false_iff in Hcached as [Hc|Hc];
        apply bool_decide_eq_false in Hc; [|done].
      destruct (masterKey (state rt0)); [|done]. exfalso. apply Hc. by eexists. }
    destruct (isLoading (state rt0) && bool_decide (lastAddress (state rt0) = Some address))
      eqn:Hload.
    + apply andb_true_iff in Hload as [Hl Ha]. apply bool_decide_eq_true in Ha.
      destruct (promise (state rt0)) as [p|] eqn:Hp.
      * intros [= <- <-].
        assert (Hsame : rt0 = rt).
        { unfold rt0 in *. destruct (shouldClearKey rt now); [|done].
          rewrite clearCache_state in Hl. discriminate Hl. }
        rewrite Hsame in *. split; [done|]. split; [by apply Hnokey|done].
      * rewrite bool_decide_eq_false_2 by (intros Hne; by apply Hne).
        intros [= <- <-]. split; [|simpl; by rewrite Hd0].
        split; [simpl; by apply Hnokey|done].
    + intros [= <- <-].
      destruct (bool_decide (lastAddress (state rt0) ≠ Some address)) eqn:Hne.
      * pose proof (clearCache_state rt0) as Hst.
        pose proof (clearCache_derivations rt0) as Hdc.
        set (rc := clearCache rt0) in *. clearbody rc.
        split; [|simpl; by rewrite Hdc, Hd0].
        split; [simpl; by rewrite Hst|done].
      * apply bool_decide_eq_false in Hne.
        assert (Ha : lastAddress (state rt0) = Some address).
        { destruct (decide (lastAddress (state rt0) = Some address)); [done|].
          exfalso. by apply Hne. }
        split; [|simpl; by rewrite Hd0].
        split; [simpl; by apply Hnokey|done].
Qed.


(** From the initial state the two calls make exactly one derivation call. *)
Example getMasterKey_twice_from_initial :
  let '(rt1, r1) := getMasterKey initial 5 "0xabc" in
  let '(rt2, r2) := getMasterKey rt1 9 "0xabc" in
  r1 = Started 1 ∧ r2 = InFlight 1 ∧ derivations rt2 = [(1, "0xabc")].
Proof. vm_compute. done. Qed.

End key_manager_facts.

Section key_manager_examples.
Import KeyManager.


End key_manager_examples.

(** ** The secure cache *)

Section secure_cache_facts.
Import SecureCache.
Context `{CachePlatform}.

Lemma clearSession_deletes b rnd :
  localStorage (clearSession b rnd) !! SESSION_KEY = None
  ∧ sessionStorage (clearSession b rnd) = sessionStorage b.
Proof.
  unfold clearSession. split.
  - simpl. apply lookup_delete_eq.
  - by destruct (truthy_text _).
Qed.

Lemma clearCredentials_deletes b rnd :
  sessionStorage (clearCredentials b rnd) !! CREDENTIALS_KEY = None
  ∧ localStorage (clearCredentials b rnd) = localStorage b.
Proof.
  unfold clearCredentials. split.
  - simpl. apply lookup_delete_eq.
  - by destruct (truthy_text _).
Qed.




(** The three causes the cache names, one by one, for the session loader. *)
Lemma getSessionIfValid_rejects b now currentAddress currentIdToken rnd
    storedDataStr storedData salt :
  localStorage b !! SESSION_KEY = Some storedDataStr →
  storedDataStr ≠ EmptyString →
  parse_StoredData storedDataStr = Some storedData →
  unb64 (StoredData.salt storedData) = Some salt →
  let key := generateEncryptionKey currentAddress currentIdToken salt in
  (StoredData.expiresAt storedData < now)%Z
  ∨ decrypt (StoredData.data storedData) (b64 key) = None
  ∨ (∃ decryptedData session,
       decrypt (StoredData.data storedData) (b64 key) = Some decryptedData
       ∧ parse_PersistedSession decryptedData = Some session
       ∧ PersistedSession.integrity session
         ≠ calculateIntegrity
             (stringify_PersistedSession (PersistedSession.without_integrity session))
             key) →
  getSessionIfValid b now currentAddress currentIdToken rnd
  = (clearSession b rnd, None).
Proof.
  intros Hs Hne Hp Hsalt key Hcause. unfold getSessionIfValid.
  destruct (negb (_ && _)); [done|]. rewrite Hs. simpl.
  rewrite decide_False by done. simpl. rewrite Hp.
  destruct (StoredData.expiresAt storedData <? now)%Z eqn:He; [done|].
  rewrite Hsalt. fold key.
  destruct Hcause as [Hexp|[Hdec|(pt & session & Hdec & Hps & Hint)]].
  - apply Z.ltb_ge in He. lia.
  - unfold verify_session. by rewrite Hdec.
  - unfold verify_session. rewrite Hdec, Hps.
    destruct (negb _ || negb _); [done|].
    by rewrite bool_decide_eq_false_2.
Qed.

End secure_cache_facts.

Section secure_cache_examples.
Import Sample SecureCache SampleCache.

(** A stored session is handed back while it is valid. *)
Example store_then_load :
  ∃ session,
    getSessionIfValid stored 2000 user token "rnd" = (stored, Some session)
    ∧ PersistedSession.masterKey session = key32.
Proof. eexists. split; vm_compute; reflexivity. Qed.

(** After one character of the stored text is replaced, the loader returns
    null and the slot is empty. *)
Example tampered_is_wiped :
  (getSessionIfValid tampered 2000 user token "rnd").2 = None
  ∧ localStorage (getSessionIfValid tampered 2000 user token "rnd").1 !! SESSION_KEY = None
  ∧ is_Some (localStorage tampered !! SESSION_KEY).
Proof. repeat split; [vm_compute; reflexivity..|]. vm_compute. by eexists. Qed.

(** One millisecond after its expiry the stored session is wiped. *)
Example expired_is_wiped :
  getSessionIfValid stored (1000 + SESSION_TTL + 1) user token "rnd"
  = (clearSession stored "rnd", None)
  ∧ localStorage (clearSession stored "rnd") !! SESSION_KEY = None.
Proof.
  split; [|apply clearSession_deletes].
  eapply (getSessionIfValid_rejects (H0:=cache_platform));
    [vm_compute; reflexivity|discriminate|vm_compute; reflexivity..|].
  left. vm_compute. reflexivity.
Qed.

End secure_cache_examples.

(** ** The pending-write queue *)


Section queue_facts.
Import PendingQueue.
Context {S : Type} (save : S → PendingWrite → S * outcome unit).









End queue_facts.

Section queue_claims.
Import PendingQueue.
Context {S : Type} (save : S → PendingWrite → S * outcome unit).





End queue_claims.

Section queue_examples.
Import PendingQueue QueueExamples Examples.

(** One poll over two entries, the second of which cannot be uploaded. *)
Example one_poll :
  (processQueue sample_save all_ok two_pending w_empty).2
  = [SaveOk 0; Acknowledged 0; SaveThrew 1]
  ∧ id <$> getPendingSaves (processQueue sample_save all_ok two_pending w_empty).1.1 = [1].
Proof. split; vm_compute; reflexivity. Qed.


End queue_examples.

(** * Further properties of the code *)

(** ** Envelope codec and blob store *)

Section envelope_more.
Import Uint8Array Envelope.

(** X1: whatever the sizes of the three fields, the encoder returns a blob (no
    [set] raises), the blob has two bytes more than the fields together, and
    each field sits unchanged at its offset: only the two length bytes can
    misstate a field, never the field's own bytes. *)
Theorem encode_keeps_fields sn iv ct :
  ∃ blob,
    encode sn iv ct = Some blob
    ∧ length blob = 2 + length sn + length iv + length ct
    ∧ slice blob 1 (1 + length sn) = sn
    ∧ slice blob (2 + length sn) (2 + length sn + length iv) = iv
    ∧ slice blob (2 + length sn + length iv) (length blob) = ct.
Proof.
  eexists. split; [apply encode_layout|].
  set (b0 := u8 (length sn)). set (b1 := u8 (length iv)).
  split; [simpl; rewrite length_app; simpl; rewrite length_app; lia|].
  split; [apply (slice_middle [b0] sn); simpl; lia|].
  split.
  - assert (E : b0 :: sn ++ b1 :: iv ++ ct = (b0 :: sn ++ [b1]) ++ iv ++ ct).
    { simpl. by rewrite <- app_assoc. }
    rewrite E. apply slice_middle; simpl; rewrite length_app; simpl; lia.
  - assert (E : b0 :: sn ++ b1 :: iv ++ ct = (b0 :: sn ++ b1 :: iv) ++ ct).
    { simpl. by rewrite <- app_assoc. }
    rewrite E. apply slice_tail; [|done].
    simpl; rewrite length_app; simpl; lia.
Qed.

(** X2: packing the fields that the reader took out of a blob gives back that
    blob, byte for byte. *)
Theorem decode_then_encode blob f :
  decode blob = inr f →
  encode (sessionNonceBytes f) (entryNonce f) (encryptedDataBytes f) = Some blob.
Proof.
  destruct f as [sn iv ct]. intros Hd. simpl.
  apply decode_inv in Hd as (b0 & b1 & -> & H0 & H1).
  rewrite encode_layout, <- H0, <- H1, !u8_to_nat. done.
Qed.

Lemma decode_then_encode_witness :
  encode [x0a; x0b] [x07] [x01; x02; x03]
  = Some [x02; x0a; x0b; x01; x07; x01; x02; x03].
Proof.
  apply (decode_then_encode [x02; x0a; x0b; x01; x07; x01; x02; x03]
           (Fields [x0a; x0b] [x07] [x01; x02; x03])).
  reflexivity.
Defined.

(** X3: the reader accepts every buffer of at least three bytes that is not
    truncated: the three too-short guards are the only way to be skipped. *)
Theorem decode_accepts_untruncated blob :
  3 ≤ length blob → truncated blob = false →
  ∃ f, decode blob = inr f.
Proof.
  intros H3 Ht. unfold truncated, declared_iv_len, declared_nonce_len in Ht.
  destruct blob as [|b0 rest]; [simpl in H3; lia|].
  simpl in Ht.
  destruct (rest !! Byte.to_nat b0) as [b1|] eqn:Hb1; [|done].
  simpl in Ht. apply bool_decide_eq_false in Ht.
  pose proof (lookup_lt_Some _ _ _ Hb1) as Hlt.
  unfold decode. rewrite decide_False by lia.
  simpl. rewrite decide_False by lia.
  rewrite Hb1. rewrite decide_False by lia.
  by eexists.
Qed.

Lemma decode_accepts_untruncated_witness :
  ∃ f, decode [x01; x0a; x00; x05] = inr f.
Proof. apply decode_accepts_untruncated; [simpl; lia|reflexivity]. Defined.

End envelope_more.

Section walrus_more.
Import Walrus.

Lemma map_set_keys {V} (m : list (string * V)) k v :
  (map_set m k v).*1 = if decide (k ∈ m.*1) then m.*1 else m.*1 ++ [k].
Proof.
  induction m as [|[k' v'] rest IH].
  - simpl. destruct (decide (k ∈ [])) as [Hin|]; [by apply elem_of_nil in Hin|done].
  - cbn [map_set]. destruct (decide (k = k')) as [->|Hk].
    + cbn [fmap list_fmap fst]. by rewrite decide_True by apply list_elem_of_here.
    + cbn [fmap list_fmap fst]. fold (fmap (M:=list) (@fst string V)). rewrite IH.
      destruct (decide (k ∈ rest.*1)) as [Hin|Hnin].
      * by rewrite decide_True by (by apply list_elem_of_further).
      * rewrite decide_False; [done|].
        intros Hc. apply elem_of_cons in Hc as [?|?]; done.
Qed.

Lemma map_set_NoDup {V} (m : list (string * V)) k v :
  NoDup m.*1 → NoDup (map_set m k v).*1.
Proof.
  intros Hnd. rewrite map_set_keys. case_decide; [done|].
  apply NoDup_app. split; [done|]. split; [|apply NoDup_singleton].
  intros x Hx Hx'. apply list_elem_of_singleton in Hx'. by subst.
Qed.

Lemma lookup_map_set {V} (m : list (string * V)) k v k' v' :
  NoDup m.*1 →
  (k', v') ∈ map_set m k v ↔ (k' = k ∧ v' = v) ∨ (k' ≠ k ∧ (k', v') ∈ m).
Proof.
  intros Hnd. induction m as [|[k0 v0] rest IH].
  - simpl. rewrite list_elem_of_singleton. split.
    + intros [= -> ->]. by left.
    + intros [[-> ->]|[_ Hin]]; [done|by apply elem_of_nil in Hin].
  - apply NoDup_cons in Hnd as [Hk0 Hnd]. cbn [map_set].
    destruct (decide (k = k0)) as [->|Hk]; rewrite !elem_of_cons.
    + split.
      * intros [[= -> ->]|Hin]; [by left|]. right. split; [|by right].
        intros ->. apply Hk0. apply list_elem_of_fmap. by exists (k0, v').
      * intros [[-> ->]|[Hne [[= -> ->]|Hin]]]; [by left|done|by right].
    + rewrite (IH Hnd). split.
      * intros [[= -> ->]|[[-> ->]|[Hne Hin]]].
        -- right. split; [done|by left].
        -- by left.
        -- right. split; [done|by right].
      * intros [[-> ->]|[Hne [[= -> ->]|Hin]]].
        -- right. by left.
        -- by left.
        -- right. right. split; done.
Qed.

Lemma retrieveBlobs_spec_gen w blobIds (m : list (string * list byte)) :
  NoDup m.*1 →
  (∀ k d, (k, d) ∈ m → blobs w !! k = Some d) →
  let r := foldl (λ blobMap blobId,
                    match blobs w !! blobId with
                    | Some d => map_set blobMap blobId d
                    | None => blobMap
                    end) m blobIds in
  NoDup r.*1
  ∧ ∀ k d, (k, d) ∈ r ↔ (k, d) ∈ m ∨ (k ∈ blobIds ∧ blobs w !! k = Some d).
Proof.
  revert m. induction blobIds as [|i ids IH]; intros m Hnd Hm; simpl.
  - split; [done|]. intros k d. split; [by left|].
    intros [?|[Hin _]]; [done|by apply elem_of_nil in Hin].
  - destruct (blobs w !! i) as [di|] eqn:Hi.
    + destruct (IH (map_set m i di)) as [Hnd' Hr].
      { by apply map_set_NoDup. }
      { intros k d Hin. apply lookup_map_set in Hin; [|done].
        destruct Hin as [[-> ->]|[_ Hin]]; [done|by apply Hm]. }
      split; [done|]. intros k d. rewrite Hr, lookup_map_set by done.
      rewrite elem_of_cons. split.
      * intros [[[-> ->]|[Hne Hin]]|[Hin Hd]].
        -- right. split; [by left|done].
        -- by left.
        -- right. split; [by right|done].
      * intros [Hin|[[->|Hin] Hd]].
        -- destruct (decide (k = i)) as [->|Hne].
           ++ left. left. split; [done|]. apply Hm in Hin. congruence.
           ++ left. right. done.
        -- left. left. split; [done|congruence].
        -- right. done.
    + destruct (IH m Hnd Hm) as [Hnd' Hr]. split; [done|].
      intros k d. rewrite Hr, elem_of_cons. split.
      * intros [?|[? ?]]; [by left|right; split; [by right|done]].
      * intros [?|[[->|?] Hd]]; [by left|congruence|by right].
Qed.

(** X4: what [retrieveBlobs] hands back: each blob id appears at most once, and
    an entry is there exactly when its id was asked for and the blob can be
    fetched; ids that cannot be fetched and repeated ids add nothing. *)
Theorem retrieveBlobs_spec w blobIds :
  NoDup (retrieveBlobs w blobIds).*1
  ∧ ∀ blobId d,
      (blobId, d) ∈ retrieveBlobs w blobIds
      ↔ blobId ∈ blobIds ∧ blobs w !! blobId = Some d.
Proof.
  destruct (retrieveBlobs_spec_gen w blobIds []) as [Hnd Hr].
  { constructor. }
  { intros k d Hin. by apply elem_of_nil in Hin. }
  split; [exact Hnd|]. intros k d. unfold retrieveBlobs. rewrite Hr.
  split; [intros [Hin|?]; [by apply elem_of_nil in Hin|done]|by right].
Qed.



End walrus_more.

(** ** Vault orchestration *)

Section vault_more.
Import Json Vault.
Context `{Platform}.

Lemma blob_result_Some {C} (mk : value → string → string → C) KM entry c :
  blob_result mk KM entry = Some c →
  ∃ v u p, c = mk v u p ∧ u ≠ EmptyString ∧ p ≠ EmptyString.
Proof.
  unfold blob_result, open_blob.
  destruct (Envelope.decode entry.2) as [|f]; [done|].
  destruct (decrypt _ _) as [pt|]; [|done].
  destruct (JSON_parse pt) as [v|]; [|done].
  destruct (check_fields v) as [[[u p]|]|] eqn:Hc; [|done..].
  intros [= <-]. exists v, u, p. split; [done|].
  unfold check_fields in Hc.
  destruct (get v "username") as [xu|]; [|done].
  destruct (required_string xu) as [u'|] eqn:Hu; [|done].
  destruct (get v "password") as [xp|]; [|done].
  destruct (required_string xp) as [p'|] eqn:Hp; [|done].
  simplify_eq.
  unfold required_string in *.
  destruct xu as [xu|]; [|done]. destruct xp as [xp|]; [|done]. simpl in *.
  apply nonempty_string_Some in Hu as [_ ?].
  apply nonempty_string_Some in Hp as [_ ?]. done.
Qed.

Lemma open_legacy_Returns KM info v u p :
  open_legacy KM info = Returns (v, u, p) → u ≠ EmptyString ∧ p ≠ EmptyString.
Proof.
  unfold open_legacy.
  destruct (decrypt _ _) as [pt|]; [|done].
  destruct (JSON_parse pt) as [v'|]; [|done].
  destruct (check_fields v') as [[[u' p']|]|] eqn:Hc; [|done..].
  intros [= -> -> ->].
  unfold check_fields in Hc.
  destruct (get v "username") as [xu|]; [|done].
  destruct (required_string xu) as [u'|] eqn:Hu; [|done].
  destruct (get v "password") as [xp|]; [|done].
  destruct (required_string xp) as [p'|] eqn:Hp; [|done].
  simplify_eq.
  unfold required_string in *.
  destruct xu as [xu|]; [|done]. destruct xp as [xp|]; [|done]. simpl in *.
  apply nonempty_string_Some in Hu as [_ ?].
  apply nonempty_string_Some in Hp as [_ ?]. done.
Qed.

(** X6: [getCredential] never hands out an empty list or a half-filled account:
    a list it returns has at least one entry, and every entry carries the
    domain that was asked for, a non-empty username and a non-empty
    password. *)
Theorem getCredential_returns_valid_accounts w domain KM address l :
  (getCredential w domain KM address).1 = Returns (Some l) →
  l ≠ []
  ∧ Forall (λ c, Vault.domain c = domain
                 ∧ username c ≠ EmptyString ∧ password c ≠ EmptyString) l.
Proof.
  unfold getCredential.
  destruct (Ledger.getUserVaultId w address) as [vaultId|]; [|done].
  case_decide; [done|].
  destruct (negb _); [done|].
  destruct (Ledger.getCredentialInfoFromDynamicField _ _ _) as [info|]; [|done].
  destruct (parse_blob_ids info) as [blobIds|].
  - rewrite read_current_result.
    destruct (omap _ _) as [|c0 rest] eqn:Hom; [done|].
    intros [= <-]. split; [done|]. rewrite <- Hom.
    apply Forall_forall. intros c Hin.
    apply list_elem_of_omap in Hin as (entry & _ & Hres).
    apply blob_result_Some in Hres as (v & u & p & -> & Hu & Hp). done.
  - destruct (open_legacy KM info) as [|[[v u] p]] eqn:Hl; [done|].
    simpl. intros [= <-]. split; [done|].
    apply open_legacy_Returns in Hl as [Hu Hp].
    apply Forall_singleton. done.
Qed.


Lemma omap_blob_result {C} (mk : value → string → string → C) KM
    (blobMap : list (string * list byte)) :
  omap (blob_result mk KM) blobMap
  = (λ t : value * string * string, mk t.1.1 t.1.2 t.2)
      <$> omap (blob_result (λ v u p, (v, u, p)) KM) blobMap.
Proof.
  induction blobMap as [|entry rest IH]; [done|].
  unfold omap in IH |- *. simpl. rewrite IH.
  unfold blob_result. destruct (open_blob KM entry.2); done.
Qed.

Lemma accounts_read_current {C} (mk : value → string → string → C) user pass w KM blobIds :
  (∀ v u p, user (mk v u p) = u) → (∀ v u p, pass (mk v u p) = p) →
  accounts user pass (read_current mk w KM blobIds).1
  = Returns (match omap (blob_result (λ v u p, (v, u, p)) KM)
                     (Walrus.retrieveBlobs w blobIds) with
             | [] => None
             | raw => Some ((λ t : value * string * string, (t.1.2, t.2)) <$> raw)
             end).
Proof.
  intros Hu Hp. rewrite read_current_result, omap_blob_result. simpl.
  destruct (omap _ _) as [|t rest]; [done|]. simpl. f_equal. f_equal.
  rewrite Hu, Hp. f_equal. rewrite <- list_fmap_compose.
  apply list_fmap_ext. intros ? [[v u] p] _. simpl. by rewrite Hu, Hp.
Qed.

(** X7: the two read functions agree: asked for a domain, [getCredential], and
    asked for that domain's fingerprint, [getCredentialByDomainHash], end
    the same way (both throw, both return null, or both return a list) and
    list the same usernames and passwords in the same order. *)
Theorem getters_return_same_accounts w domain KM address :
  accounts username password (getCredential w domain KM address).1
  = accounts husername hpassword
      (getCredentialByDomainHash w (hashDomain domain KM) KM address).1.
Proof.
  unfold getCredential, getCredentialByDomainHash.
  destruct (Ledger.getUserVaultId w address) as [vaultId|]; [|done].
  case_decide; [done|].
  destruct (negb _); [done|].
  destruct (Ledger.getCredentialInfoFromDynamicField _ _ _) as [info|]; [|done].
  destruct (parse_blob_ids info) as [blobIds|].
  - by rewrite !accounts_read_current.
  - destruct (open_legacy KM info) as [|[[v u] p]]; done.
Qed.

Lemma getOrCreateVault_spec w address w1 vaultId :
  Ledger.getOrCreateVault w address = (w1, vaultId) →
  vaultId = address
  ∧ blobs w1 = blobs w
  ∧ is_Some (vaults w1 !! address)
  ∧ ∀ v fp, Ledger.getCredentialInfoFromDynamicField w1 v fp
            = Ledger.getCredentialInfoFromDynamicField w v fp.
Proof.
  unfold Ledger.getOrCreateVault.
  destruct (vaults w !! address) as [vault|] eqn:Hv; intros [= <- <-].
  - split; [done|]. split; [done|]. split; [by rewrite Hv|done].
  - split; [done|]. split; [done|]. split; [simpl; by rewrite lookup_insert_eq|].
    intros v fp. unfold Ledger.getCredentialInfoFromDynamicField. simpl.
    destruct (decide (v = address)) as [->|Hne].
    + rewrite lookup_insert_eq, Hv. simpl. apply lookup_empty.
    + by rewrite lookup_insert_ne.
Qed.

(** X8: once [saveCredential] has returned, the record exists: with the same
    master key, [credentialExists] answers true for the saved domain. *)
Theorem save_then_exists w c KM address env w' :
  address ≠ EmptyString → KM ≠ EmptyString →
  saveCredential w c KM address env = (w', Returns tt) →
  credentialExists w' (domain c) address (Some KM) = true.
Proof.
  intros Ha HKM. unfold saveCredential.
  destruct (Ledger.getOrCreateVault w address) as [w1 vaultId] eqn:Hvault.
  apply getOrCreateVault_spec in Hvault as (-> & _ & _ & _).
  destruct (unb64 _) as [sn|]; [|done].
  destruct (split_on _ _) as [|ivB64 [|ctB64 rest]]; [done..|].
  destruct (unb64 ctB64) as [ct|]; [|done].
  destruct (unb64 ivB64) as [iv|]; [|done].
  destruct (Envelope.encode _ _ _) as [blob|]; [|done].
  destruct (negb _); [done|].
  destruct (Walrus.storeBlob _ _ _ _) as [w2 [|blobId]]; [done|].
  set (fp := hashDomain (domain c) KM).
  set (i := Build_Info _ _ _).
  assert (Hex : ∀ w0, credentialExists (Ledger.writeRecord w0 address fp i)
                        (domain c) address (Some KM) = true).
  { intros w0. unfold credentialExists, Ledger.getUserVaultId. simpl.
    rewrite lookup_insert_eq, !decide_False by done. fold fp.
    unfold Ledger.checkCredentialExists. rewrite lookup_after_write.
    by apply bool_decide_eq_true. }
  destruct (Ledger.checkCredentialExists w1 address fp); intros [= <-]; apply Hex.
Qed.


(** X10: [deleteCredential] removes the ledger record and nothing else.  When
    there is no record for the domain it throws and every record reads as
    before; otherwise it returns, the stored blobs are all still there,
    [credentialExists] answers false and [getCredential] returns null. *)
Theorem deleteCredential_spec w domain KM address :
  address ≠ EmptyString →
  let fp := hashDomain domain KM in
  let '(w', r) := deleteCredential w domain KM address in
  blobs w' = blobs w
  ∧ if Ledger.checkCredentialExists w address fp
    then r = Returns tt
         ∧ credentialExists w' domain address (Some KM) = false
         ∧ (getCredential w' domain KM address).1 = Returns None
    else r = Throws
         ∧ ∀ vaultId fp', Ledger.getCredentialInfoFromDynamicField w' vaultId fp'
                          = Ledger.getCredentialInfoFromDynamicField w vaultId fp'.
Proof.
  intros Ha fp. unfold deleteCredential.
  destruct (Ledger.getOrCreateVault w address) as [w1 vaultId] eqn:Hvault.
  apply getOrCreateVault_spec in Hvault as (-> & Hb & Hv & Hsame).
  fold fp.
  assert (He : Ledger.checkCredentialExists w1 address fp
               = Ledger.checkCredentialExists w address fp).
  { unfold Ledger.checkCredentialExists. by rewrite Hsame. }
  rewrite He. destruct (Ledger.checkCredentialExists w address fp); simpl.
  - split; [done|]. split; [done|].
    assert (Hgone : Ledger.checkCredentialExists
                      (Ledger.deleteCredential w1 address fp) address fp = false).
    { unfold Ledger.checkCredentialExists, Ledger.getCredentialInfoFromDynamicField.
      simpl. rewrite lookup_insert_eq. simpl. rewrite lookup_delete_eq.
      apply bool_decide_eq_false. by intros [? ?]. }
    assert (Hvault : Ledger.getUserVaultId (Ledger.deleteCredential w1 address fp) address
                     = Some address).
    { unfold Ledger.getUserVaultId. simpl. by rewrite lookup_insert_eq. }
    split.
    + unfold credentialExists. rewrite Hvault, decide_False by done.
      case_decide; [done|]. exact Hgone.
    + unfold getCredential. rewrite Hvault, decide_False by done.
      fold fp. by rewrite Hgone.
  - done.
Qed.

End vault_more.

Section vault_more_examples.
Import Json Vault Sample Examples.

Lemma getCredential_returns_valid_accounts_witness :
  [bob] ≠ []
  ∧ Forall (λ c, Vault.domain c = "example.com"
                 ∧ username c ≠ EmptyString ∧ password c ≠ EmptyString) [bob].
Proof.
  apply (getCredential_returns_valid_accounts (H:=platform) w_one_bad "example.com" KM owner).
  vm_compute. reflexivity.
Defined.

Lemma save_then_exists_witness :
  credentialExists (saveCredential w_empty alice KM owner envA).1
    (domain alice) owner (Some KM) = true.
Proof.
  apply (save_then_exists (H:=platform) w_empty alice KM owner envA);
    [discriminate|discriminate|vm_compute; reflexivity].
Defined.


Lemma deleteCredential_spec_witness :
  let '(w', r) := deleteCredential w_one_bad "example.com" KM owner in
  blobs w' = blobs w_one_bad
  ∧ r = Returns tt
  ∧ credentialExists w' "example.com" owner (Some KM) = false
  ∧ (getCredential w' "example.com" KM owner).1 = Returns None.
Proof.
  pose proof (deleteCredential_spec (H:=platform) w_one_bad "example.com" KM owner
                ltac:(discriminate)) as Hspec.
  cbv zeta in Hspec.
  destruct (deleteCredential w_one_bad "example.com" KM owner) as [w' r].
  assert (E : Ledger.checkCredentialExists w_one_bad owner (hashDomain "example.com" KM)
              = true) by (vm_compute; reflexivity).
  rewrite E in Hspec. exact Hspec.
Defined.

End vault_more_examples.

(** ** Master-key manager *)

Section key_manager_more.
Import KeyManager.

Lemma recordAccess_keeps rt now :
  masterKey (state (recordAccess rt now)) = masterKey (state rt)
  ∧ heap (recordAccess rt now) = heap rt
  ∧ derivations (recordAccess rt now) = derivations rt
  ∧ lastAddress (state (recordAccess rt now)) = lastAddress (state rt).
Proof.
  unfold recordAccess. destruct (shouldClearKey _ now); done.
Qed.



Lemma setMasterKey_state rt now address key :
  let rt' := setMasterKey rt now address key in
  masterKey (state rt') = Some (fresh rt)
  ∧ heap rt' !! fresh rt = Some key
  ∧ lastAddress (state rt') = Some address
  ∧ createdAt (state rt') = Some now
  ∧ lastAccessTime (state rt') = Some now
  ∧ accessCount (state rt') = 0
  ∧ derivations rt' = derivations rt.
Proof.
  unfold setMasterKey.
  destruct (secureClearKey_derivations rt) as [Hd Hf].
  pose proof (secureClearKey_state rt) as Hs.
  set (rt0 := secureClearKey rt) in *. clearbody rt0.
  destruct rt0 as [s h t d f]. simpl in *. subst.
  unfold setupClearanceTimer. simpl.
  repeat split; simpl; by rewrite ?lookup_insert_eq.
Qed.

Lemma shouldClearKey_fresh rt now now' :
  masterKey (state rt) ≠ None →
  createdAt (state rt) = Some now →
  lastAccessTime (state rt) = Some now →
  accessCount (state rt) ≤ MAX_ACCESS_COUNT →
  (now' - now ≤ IDLE_TIMEOUT)%Z →
  shouldClearKey rt now' = false.
Proof.
  intros Hk Hc Hl Hn Hle. unfold shouldClearKey. rewrite Hc, Hl. simpl.
  destruct (masterKey (state rt)) eqn:E; [|done].
  rewrite bool_decide_eq_true_2 by eauto. simpl.
  destruct (now =? 0)%Z eqn:Hz; simpl; [done|].
  unfold MAX_KEY_AGE, IDLE_TIMEOUT in *.
  rewrite (proj2 (Z.ltb_ge _ _)) by lia.
  rewrite (proj2 (Z.ltb_ge _ _)) by lia.
  rewrite bool_decide_eq_false_2 by lia. done.
Qed.

(** X12: a key restored with [setMasterKey] is served from the cache: within the
    idle timeout, [getMasterKey] for the same address returns the bytes that
    were set and [deriveMasterKey] is not called. *)
Theorem setMasterKey_then_getMasterKey rt now now' address key :
  (now' - now ≤ IDLE_TIMEOUT)%Z →
  let rt1 := setMasterKey rt now address key in
  (getMasterKey rt1 now' address).2 = Cached (Some key)
  ∧ derivations (getMasterKey rt1 now' address).1 = derivations rt.
Proof.
  intros Hle rt1.
  destruct (setMasterKey_state rt now address key) as (Hk & Hh & Ha & Hc & Hl & Hn & Hd).
  fold rt1 in Hk, Hh, Ha, Hc, Hl, Hn, Hd.
  assert (Hfresh : shouldClearKey rt1 now' = false).
  { apply (shouldClearKey_fresh rt1 now); [by rewrite Hk|done|done|rewrite Hn; lia|done]. }
  destruct (recordAccess_keeps rt1 now') as (Hm & Hh' & Hd' & _).
  assert (Hget : getMasterKey rt1 now' address
                 = (recordAccess rt1 now', Cached (Some key))).
  { unfold getMasterKey. rewrite Hfresh, Hk, Ha.
    rewrite !bool_decide_eq_true_2 by eauto. cbn [andb].
    cbv zeta. rewrite Hm, Hh', Hk. cbn [mbind option_bind]. by rewrite Hh. }
  rewrite Hget. cbn [fst snd]. split; [done|]. by rewrite Hd'.
Qed.

Lemma setMasterKey_then_getMasterKey_witness :
  (getMasterKey (setMasterKey initial 1000 "0xabc" [x6b; x65; x79]) 2000 "0xabc").2
  = Cached (Some [x6b; x65; x79])
  ∧ derivations
      (getMasterKey (setMasterKey initial 1000 "0xabc" [x6b; x65; x79]) 2000 "0xabc").1
    = derivations initial.
Proof.
  apply (setMasterKey_then_getMasterKey initial 1000 2000 "0xabc" [x6b; x65; x79]).
  vm_compute. discriminate.
Defined.

Lemma clearCache_heap rt key buf :
  masterKey (state rt) = Some key → heap rt !! key = Some buf →
  heap (clearCache rt) !! key = Some (Uint8Array.fill0 buf).
Proof.
  intros Hk Hb. unfold clearCache. simpl.
  rewrite secureClearKey_heap, Hk, lookup_alter_eq, Hb. done.
Qed.




Lemma shouldClearKey_expired rt now key c :
  masterKey (state rt) = Some key → createdAt (state rt) = Some c → c ≠ 0%Z →
  (MAX_KEY_AGE < now - c)%Z
  ∨ (∃ la, lastAccessTime (state rt) = Some la ∧ (IDLE_TIMEOUT < now - la)%Z) →
  shouldClearKey rt now = true.
Proof.
  intros Hk Hc Hc0 Hexp. unfold shouldClearKey. rewrite Hk, Hc.
  rewrite bool_decide_eq_true_2 by eauto. simpl.
  rewrite (proj2 (Z.eqb_neq c 0)) by done. simpl.
  destruct Hexp as [Hage|(la & Hla & Hidle)].
  - by rewrite (proj2 (Z.ltb_lt _ _)) by done.
  - destruct (MAX_KEY_AGE <? now - c)%Z; [done|]. rewrite Hla. simpl.
    destruct (la =? 0)%Z; simpl; [done|].
    by rewrite (proj2 (Z.ltb_lt _ _)) by done.
Qed.

(** X14: an expired key is never handed out.  When the cached key is older than
    eight hours, or has not been used for more than thirty minutes, neither
    [getMasterKey] nor [getCachedMasterKey] returns it: the first starts a
    new derivation, the second returns null, and in both cases the old
    buffer is all zeros afterwards. *)
Theorem expired_key_is_not_served rt now address key buf c :
  masterKey (state rt) = Some key → heap rt !! key = Some buf →
  createdAt (state rt) = Some c → c ≠ 0%Z →
  (MAX_KEY_AGE < now - c)%Z
  ∨ (∃ la, lastAccessTime (state rt) = Some la ∧ (IDLE_TIMEOUT < now - la)%Z) →
  (∃ p, (getMasterKey rt now address).2 = Started p)
  ∧ heap (getMasterKey rt now address).1 !! key = Some (Uint8Array.fill0 buf)
  ∧ (getCachedMasterKey rt now).2 = None
  ∧ heap (getCachedMasterKey rt now).1 !! key = Some (Uint8Array.fill0 buf).
Proof.
  intros Hk Hb Hc Hc0 Hexp.
  pose proof (shouldClearKey_expired rt now key c Hk Hc Hc0 Hexp) as Hclear.
  pose proof (clearCache_state rt) as Hst.
  pose proof (clearCache_heap rt key buf Hk Hb) as Hz.
  unfold getMasterKey, getCachedMasterKey. rewrite Hclear.
  set (rc := clearCache rt) in *. clearbody rc.
  destruct rc as [s h t d f]. simpl in Hst, Hz. subst s. simpl. eauto.
Qed.

Lemma expired_key_is_not_served_witness :
  (∃ p, (getMasterKey cached_example (6 + MAX_KEY_AGE + 1) "0xabc").2 = Started p)
  ∧ heap (getMasterKey cached_example (6 + MAX_KEY_AGE + 1) "0xabc").1 !! 2
    = Some (Uint8Array.fill0 [x6b; x65; x79])
  ∧ (getCachedMasterKey cached_example (6 + MAX_KEY_AGE + 1)).2 = None
  ∧ heap (getCachedMasterKey cached_example (6 + MAX_KEY_AGE + 1)).1 !! 2
    = Some (Uint8Array.fill0 [x6b; x65; x79]).
Proof.
  apply (expired_key_is_not_served cached_example (6 + MAX_KEY_AGE + 1) "0xabc" 2
           [x6b; x65; x79] 6);
    [vm_compute; reflexivity..|discriminate|].
  left. vm_compute. reflexivity.
Defined.

(** X15: [getCachedMasterKey] never calls [deriveMasterKey], and what it returns
    is the content of the cached buffer of a key that has not expired. *)
Theorem getCachedMasterKey_never_derives rt now :
  derivations (getCachedMasterKey rt now).1 = derivations rt
  ∧ match (getCachedMasterKey rt now).2 with
    | Some k =>
      shouldClearKey rt now = false
      ∧ ∃ key, masterKey (state rt) = Some key ∧ k = heap rt !! key
    | None => True
    end.
Proof.
  unfold getCachedMasterKey. destruct (shouldClearKey rt now) eqn:Hclear.
  - simpl. split; [apply clearCache_derivations|done].
  - destruct (bool_decide (is_Some (masterKey (state rt)))) eqn:Hk; [|done].
    apply bool_decide_eq_true in Hk as [key Hk].
    destruct (recordAccess_keeps rt now) as (Hm & Hh & Hd & _).
    cbv zeta. cbn [fst snd]. rewrite Hm, Hh, Hk. eauto.
Qed.

Lemma getMasterKey_started_fresh rt now address rt1 p :
  getMasterKey rt now address = (rt1, Started p) → fresh rt1 = S p.
Proof.
  unfold getMasterKey.
  set (rt0 := if shouldClearKey rt now then clearCache rt else rt). clearbody rt0.
  destruct (_ && _); [done|].
  destruct (if isLoading (state rt0) && _ then _ else _); [done|].
  set (rt2 := if bool_decide _ then clearCache rt0 else rt0). clearbody rt2.
  simpl. by intros [= <- <-].
Qed.

(** X16: a derivation that fails is not remembered: after the promise of a
    started derivation is rejected, the next call for the same address
    starts a second, new derivation instead of returning the failed one. *)
Theorem failed_derivation_is_retried rt now now' address rt1 p :
  getMasterKey rt now address = (rt1, Started p) →
  ∃ p', (getMasterKey (on_rejected rt1) now' address).2 = Started p'
        ∧ p' ≠ p
        ∧ derivations (getMasterKey (on_rejected rt1) now' address).1
          = derivations rt ++ [(p, address); (p', address)].
Proof.
  intros Hget.
  pose proof (getMasterKey_started_fresh _ _ _ _ _ Hget) as Hf.
  apply getMasterKey_cases in Hget as [(Hk & Hl & Ha & Hp) Hd].
  exists (S p).
  unfold getMasterKey.
  rewrite shouldClearKey_no_key by done.
  destruct rt1 as [s h t d f]. simpl in *. subst.
  rewrite Hk, Ha. simpl.
  rewrite (bool_decide_eq_false_2 (Some address ≠ Some address)) by (intros Hne; by apply Hne).
  simpl. split; [done|]. split; [lia|]. by rewrite <- app_assoc.
Qed.

Lemma failed_derivation_is_retried_witness :
  ∃ p', (getMasterKey (on_rejected (getMasterKey initial 5 "0xabc").1) 9 "0xabc").2
        = Started p'
        ∧ p' ≠ 1
        ∧ derivations (getMasterKey (on_rejected (getMasterKey initial 5 "0xabc").1)
                         9 "0xabc").1
          = derivations initial ++ [(1, "0xabc"); (p', "0xabc")].
Proof.
  apply (failed_derivation_is_retried initial 5 9 "0xabc"
           (getMasterKey initial 5 "0xabc").1 1).
  vm_compute. reflexivity.
Defined.

(** X17: in every state the manager can reach from its initial state, at most
    one periodic clearance check is pending. *)
Theorem at_most_one_periodic_check (actions : list action) :
  length (pending_checks (foldl act initial actions)) ≤ 1.
Proof.
  assert (Htr : timers_tracked (foldl act initial actions)).
  { induction actions as [|a actions IH] using rev_ind; [apply timers_tracked_initial|].
    rewrite foldl_app. simpl. by apply timers_tracked_act. }
  set (rt := foldl act initial actions) in *. clearbody rt.
  destruct Htr as [_ Htr]. unfold pending_checks.
  assert (Hnd : NoDup (filter (λ t : nat * callback, t.2 = CheckClearance)
                         (map_to_list (timers rt)))).
  { apply NoDup_filter, NoDup_map_to_list. }
  assert (Hall : ∀ x, x ∈ filter (λ t : nat * callback, t.2 = CheckClearance)
                        (map_to_list (timers rt)) →
                      clearanceTimer (state rt) = Some x.1 ∧ x.2 = CheckClearance).
  { intros [t cb] Hin. apply list_elem_of_filter in Hin as [Hcb Hin]. simpl in Hcb. subst cb.
    apply elem_of_map_to_list in Hin. split; [by apply Htr|done]. }
  destruct (filter _ _) as [|x [|y l]]; [simpl; lia..|].
  exfalso. apply NoDup_cons in Hnd as [Hx _]. apply Hx.
  destruct (Hall x) as [Hx1 Hx2]; [apply list_elem_of_here|].
  destruct (Hall y) as [Hy1 Hy2]; [apply list_elem_of_further, list_elem_of_here|].
  destruct x as [x1 x2], y as [y1 y2]. simpl in *. subst.
  assert (x1 = y1) by congruence. subst. apply list_elem_of_here.
Qed.

(** X18: what the periodic check does when it fires.  If the key has expired
    the cache is cleared: the key buffer is zeroed and no check is left
    scheduled.  Otherwise the key and its buffer are untouched and the
    check is scheduled again. *)
Theorem periodic_check_fires rt now timer :
  timers rt !! timer = Some CheckClearance →
  let rt' := fire rt now timer in
  if shouldClearKey rt now
  then masterKey (state rt') = None
       ∧ clearanceTimer (state rt') = None
       ∧ (∀ key buf, masterKey (state rt) = Some key → heap rt !! key = Some buf →
            heap rt' !! key = Some (Uint8Array.fill0 buf))
  else masterKey (state rt') = masterKey (state rt)
       ∧ heap rt' = heap rt
       ∧ ∃ t, clearanceTimer (state rt') = Some t
              ∧ timers rt' !! t = Some CheckClearance.
Proof.
  intros Ht rt'. subst rt'. unfold fire. rewrite Ht.
  change (shouldClearKey (clearTimeout timer rt) now) with (shouldClearKey rt now).
  destruct (shouldClearKey rt now).
  - rewrite clearCache_state. simpl. split; [done|]. split; [done|].
    intros key buf Hk Hb. by apply (clearCache_heap (clearTimeout timer rt)).
  - unfold setupClearanceTimer. destruct rt as [s h t d f]. simpl in *.
    destruct (clearanceTimer s); simpl;
      (split; [done|]; split; [done|]; eexists; split; [done|]; apply lookup_insert_eq).
Qed.

Lemma periodic_check_fires_witness :
  masterKey (state (fire cached_example 100 3)) = masterKey (state cached_example)
  ∧ heap (fire cached_example 100 3) = heap cached_example
  ∧ ∃ t, clearanceTimer (state (fire cached_example 100 3)) = Some t
         ∧ timers (fire cached_example 100 3) !! t = Some CheckClearance.
Proof.
  pose proof (periodic_check_fires cached_example 100 3 ltac:(vm_compute; reflexivity))
    as Hfire.
  cbv zeta in Hfire.
  assert (E : shouldClearKey cached_example 100 = false) by (vm_compute; reflexivity).
  rewrite E in Hfire. exact Hfire.
Defined.

End key_manager_more.

(** ** Regular expressions and input validation *)

Section regex_facts.
Import Regex.

Lemma lang_Void s : ¬ lang Void s.
Proof. intros Hl. inversion Hl. Qed.

Lemma lang_Eps s : lang Eps s ↔ s = [].
Proof. split; [intros Hl; by inversion Hl|intros ->; constructor]. Qed.

Lemma lang_Class p s : lang (Class p) s ↔ ∃ c, s = [c] ∧ p c = true.
Proof.
  split.
  - intros Hl. inversion Hl; subst. eauto.
  - intros (c & -> & Hp). by constructor.
Qed.

Lemma lang_Seq r1 r2 s :
  lang (Seq r1 r2) s ↔ ∃ s1 s2, s = s1 ++ s2 ∧ lang r1 s1 ∧ lang r2 s2.
Proof.
  split.
  - intros Hl. inversion Hl; subst. eauto.
  - intros (s1 & s2 & -> & H1 & H2). by constructor.
Qed.

Lemma lang_Alt r1 r2 s : lang (Alt r1 r2) s ↔ lang r1 s ∨ lang r2 s.
Proof.
  split.
  - intros Hl. inversion Hl; subst; eauto.
  - intros [Hl|Hl]; [by apply lang_alt_l|by apply lang_alt_r].
Qed.

Lemma lang_Star_cons r c s :
  lang (Star r) (c :: s)
  ↔ ∃ s1 s2, s = s1 ++ s2 ∧ lang r (c :: s1) ∧ lang (Star r) s2.
Proof.
  split.
  - intros Hl. remember (Star r) as r' eqn:Er. remember (c :: s) as s' eqn:Es.
    revert s Es. induction Hl as [| | | | | |r0 s1 s2 H1 _ H2 IH2]; intros t Et; try done.
    injection Er as ->. destruct s1 as [|c1 s1].
    + simpl in Et. by apply IH2.
    + simpl in Et. injection Et as -> <-. eauto.
  - intros (s1 & s2 & -> & H1 & H2).
    change (c :: s1 ++ s2) with ((c :: s1) ++ s2). by constructor.
Qed.

Lemma nullable_lang r : nullable r = true ↔ lang r [].
Proof.
  induction r as [| |p|r1 IH1 r2 IH2|r1 IH1 r2 IH2|r IH]; simpl.
  - split; [done|]. intros Hl. by apply lang_Void in Hl.
  - split; [constructor|done].
  - split; [done|]. intros Hl. apply lang_Class in Hl as (c & ? & _). done.
  - rewrite andb_true_iff, IH1, IH2, lang_Seq. split.
    + intros [H1 H2]. by exists [], [].
    + intros (s1 & s2 & Hs & H1 & H2). symmetry in Hs.
      apply app_eq_nil in Hs as [-> ->]. done.
  - by rewrite orb_true_iff, IH1, IH2, lang_Alt.
  - split; [constructor|done].
Qed.

Lemma seq_lang r1 r2 s : lang (seq r1 r2) s ↔ lang (Seq r1 r2) s.
Proof.
  assert (Hvl : ∀ r, lang (Seq Void r) s ↔ lang Void s).
  { intros r. rewrite lang_Seq. split.
    - intros (? & ? & _ & Hl & _). by apply lang_Void in Hl.
    - intros Hl. by apply lang_Void in Hl. }
  assert (Hvr : ∀ r, lang (Seq r Void) s ↔ lang Void s).
  { intros r. rewrite lang_Seq. split.
    - intros (? & ? & _ & _ & Hl). by apply lang_Void in Hl.
    - intros Hl. by apply lang_Void in Hl. }
  assert (He : ∀ r, lang (Seq Eps r) s ↔ lang r s).
  { intros r. rewrite lang_Seq. split.
    - intros (? & ? & -> & Hl & ?). apply lang_Eps in Hl as ->. done.
    - intros Hl. exists [], s. split; [done|]. split; [constructor|done]. }
  destruct r1, r2; simpl; rewrite ?Hvl, ?Hvr, ?He; done.
Qed.

Lemma alt_lang r1 r2 s : lang (alt r1 r2) s ↔ lang (Alt r1 r2) s.
Proof.
  assert (Hvl : ∀ r, lang (Alt Void r) s ↔ lang r s).
  { intros r. rewrite lang_Alt. split; [|by right].
    intros [Hl|?]; [by apply lang_Void in Hl|done]. }
  assert (Hvr : ∀ r, lang (Alt r Void) s ↔ lang r s).
  { intros r. rewrite lang_Alt. split; [|by left].
    intros [?|Hl]; [done|by apply lang_Void in Hl]. }
  destruct r1, r2; simpl; rewrite ?Hvl, ?Hvr; done.
Qed.

Lemma deriv_lang c r s : lang (deriv c r) s ↔ lang r (c :: s).
Proof.
  revert s. induction r as [| |p|r1 IH1 r2 IH2|r1 IH1 r2 IH2|r IH]; intros s; simpl.
  - split; intros Hl; by apply lang_Void in Hl.
  - split; intros Hl; [by apply lang_Void in Hl|by apply lang_Eps in Hl].
  - rewrite lang_Class. destruct (p c) eqn:Hp.
    + rewrite lang_Eps. split.
      * intros ->. eauto.
      * intros (c' & [= -> ->] & _). done.
    + split; [intros Hl; by apply lang_Void in Hl|].
      intros (c' & [= -> ->] & Hp'). congruence.
  - assert (Hseq : lang (seq (deriv c r1) r2) s
                   ↔ ∃ s1 s2, s = s1 ++ s2 ∧ lang r1 (c :: s1) ∧ lang r2 s2).
    { rewrite seq_lang, lang_Seq. by setoid_rewrite IH1. }
    rewrite (lang_Seq r1 r2 (c :: s)).
    destruct (nullable r1) eqn:Hn.
    + rewrite alt_lang, lang_Alt, Hseq, IH2. split.
      * intros [(s1 & s2 & -> & H1 & H2)|H2].
        -- exists (c :: s1), s2. done.
        -- exists [], (c :: s). split; [done|]. split; [by apply nullable_lang|done].
      * intros (s1 & s2 & Hs & H1 & H2). destruct s1 as [|c1 s1].
        -- simpl in Hs. subst. by right.
        -- simpl in Hs. injection Hs as <- ->. left. eauto.
    + rewrite Hseq. split.
      * intros (s1 & s2 & -> & H1 & H2). exists (c :: s1), s2. done.
      * intros (s1 & s2 & Hs & H1 & H2). destruct s1 as [|c1 s1].
        -- apply nullable_lang in H1. congruence.
        -- simpl in Hs. injection Hs as <- ->. eauto.
  - by rewrite alt_lang, !lang_Alt, IH1, IH2.
  - rewrite seq_lang, lang_Seq, lang_Star_cons. by setoid_rewrite IH.
Qed.

(** The matcher decides the language. *)
Lemma matches_lang r s : matches r s = true ↔ lang r s.
Proof.
  revert r. induction s as [|c s IH]; intros r; simpl.
  - apply nullable_lang.
  - by rewrite IH, deriv_lang.
Qed.

Lemma lang_Star_any s : lang (Star any) s.
Proof.
  induction s as [|c s IH]; [constructor|].
  change (c :: s) with ([c] ++ s). constructor; [by constructor|done].
Qed.

Lemma lang_lit_ci m s : lang (lit_ci m) s ↔ to_lower <$> s = to_lower <$> m.
Proof.
  revert s. induction m as [|ch m IH]; intros s; simpl.
  - rewrite lang_Eps. split; [by intros ->|]. by destruct s.
  - rewrite lang_Seq. split.
    + intros (s1 & s2 & -> & H1 & H2). apply lang_Class in H1 as (c & -> & Hc).
      apply bool_decide_eq_true in Hc. apply IH in H2.
      change ([c] ++ s2) with (c :: s2). rewrite !fmap_cons. by rewrite Hc, H2.
    + destruct s as [|c s]; [done|]. rewrite !fmap_cons. intros [= Hc Hs].
      exists [c], s. split; [done|]. split; [|by apply IH].
      apply lang_Class. exists c. split; [done|]. by apply bool_decide_eq_true.
Qed.

(** [test] finds the pattern anywhere in the string. *)
Lemma test_lit_ci m s :
  test (lit_ci (String.list_ascii_of_string m)) s = true ↔ SecurityValidator.occurs_ci m s.
Proof.
  unfold test, SecurityValidator.occurs_ci. rewrite matches_lang, lang_Seq. split.
  - intros (pre & rest & Hs & _ & Hrest).
    apply lang_Seq in Hrest as (mid & post & -> & Hmid & _).
    exists pre, mid, post. split; [done|]. by apply lang_lit_ci.
  - intros (pre & mid & post & Hs & Hmid).
    exists pre, (mid ++ post). split; [done|]. split; [apply lang_Star_any|].
    apply lang_Seq. exists mid, post. split; [done|].
    split; [by apply lang_lit_ci|apply lang_Star_any].
Qed.

End regex_facts.

Section validator_facts.
Import Regex SecurityValidator.

Lemma lang_upto_class n p s :
  lang (upto n (Class p)) s ↔ length s ≤ n ∧ Forall (λ c, p c = true) s.
Proof.
  revert s. induction n as [|n IH]; intros s; simpl.
  - rewrite lang_Eps. split.
    + intros ->. split; [done|constructor].
    + intros [Hl _]. destruct s; [done|simpl in Hl; lia].
  - unfold opt. rewrite lang_Alt, lang_Eps, lang_Seq. split.
    + intros [->|(s1 & s2 & -> & H1 & H2)].
      * split; [simpl; lia|constructor].
      * apply lang_Class in H1 as (c & -> & Hc). apply IH in H2 as [Hl Hall].
        split; [simpl; lia|by constructor].
    + intros [Hl Hall]. destruct s as [|c s]; [by left|]. right.
      apply Forall_cons in Hall as [Hc Hall]. exists [c], s. split; [done|].
      split; [apply lang_Class; eauto|]. apply IH. split; [simpl in Hl; lia|done].
Qed.

(** A label on the list of its characters. *)
Lemma lang_label t :
  lang label t
  ↔ 1 ≤ length t ∧ length t ≤ 63
    ∧ Forall (λ c, alnum_hyphen c = true) t
    ∧ (∃ c, head t = Some c ∧ alnum c = true)
    ∧ (∃ c, last t = Some c ∧ alnum c = true).
Proof.
  assert (Hah : ∀ c, alnum c = true → alnum_hyphen c = true).
  { intros c Hc. unfold alnum_hyphen. by rewrite Hc. }
  unfold label, opt. rewrite lang_Seq. split.
  - intros (s1 & s2 & -> & H1 & H2). apply lang_Class in H1 as (c & -> & Hc).
    apply lang_Alt in H2 as [H2|H2].
    + apply lang_Eps in H2 as ->. simpl.
      repeat split; [lia|lia|by repeat constructor; apply Hah|eauto..].
    + apply lang_Seq in H2 as (mid & e & -> & Hmid & He).
      apply lang_Class in He as (c' & -> & Hc').
      apply lang_upto_class in Hmid as [Hl Hall].
      simpl. rewrite length_app. simpl.
      split; [lia|]. split; [lia|]. split.
      { constructor; [by apply Hah|]. apply Forall_app. split; [done|].
        by repeat constructor; apply Hah. }
      split; [eauto|]. exists c'. split; [|done].
      change (c :: mid ++ [c']) with ((c :: mid) ++ [c']). apply last_snoc.
  - intros (H1 & H63 & Hall & (c & Hhd & Hc) & (c' & Hlast & Hc')).
    destruct t as [|c0 rest]; [simpl in H1; lia|]. simpl in Hhd. injection Hhd as ->.
    exists [c], rest. split; [done|]. split; [apply lang_Class; eauto|].
    apply lang_Alt.
    destruct (decide (rest = [])) as [->|Hne]; [left; constructor|]. right.
    destruct (exists_last Hne) as (mid & e & ->).
    change (c :: mid ++ [e]) with ((c :: mid) ++ [e]) in Hlast.
    rewrite last_snoc in Hlast. injection Hlast as ->.
    apply lang_Seq. exists mid, [c']. split; [done|].
    split; [|apply lang_Class; eauto].
    apply lang_upto_class. apply Forall_cons in Hall as [_ Hall].
    apply Forall_app in Hall as [Hall _].
    split; [|done]. simpl in H63. rewrite length_app in H63. simpl in H63. lia.
Qed.

Lemma lang_Star_concat r s :
  lang (Star r) s ↔ ∃ ss, s = concat ss ∧ Forall (lang r) ss.
Proof.
  split.
  - intros Hl. remember (Star r) as r' eqn:Er.
    induction Hl as [| | | | | |r0 s1 s2 H1 _ H2 IH2]; try done.
    + exists []. split; [done|constructor].
    + injection Er as ->. destruct (IH2 eq_refl) as (ss & -> & Hall).
      exists (s1 :: ss). split; [done|by constructor].
  - intros (ss & -> & Hall). induction Hall as [|s1 ss H1 _ IH]; simpl.
    + constructor.
    + by constructor.
Qed.

Lemma lang_domainRegex s :
  lang domainRegex s
  ↔ ∃ l0 ls, s = l0 ++ concat (cons "."%char <$> ls)
             ∧ Forall (lang label) (l0 :: ls).
Proof.
  unfold domainRegex. rewrite lang_Seq. split.
  - intros (l0 & rest & -> & H0 & Hrest).
    apply lang_Star_concat in Hrest as (ss & -> & Hall).
    assert (Hls : ∃ ls, ss = cons "."%char <$> ls ∧ Forall (lang label) ls).
    { induction Hall as [|t ss Ht _ (ls & -> & Hls)]; [by exists []|].
      apply lang_Seq in Ht as (d & l & -> & Hd & Hl).
      apply lang_Class in Hd as (c & -> & Hc). apply bool_decide_eq_true in Hc as ->.
      exists (l :: ls). split; [done|by constructor]. }
    destruct Hls as (ls & -> & Hls). exists l0, ls. split; [done|by constructor].
  - intros (l0 & ls & -> & Hall). apply Forall_cons in Hall as [H0 Hls].
    exists l0, (concat (cons "."%char <$> ls)). split; [done|]. split; [done|].
    apply lang_Star_concat. exists (cons "."%char <$> ls). split; [done|].
    apply Forall_fmap. eapply Forall_impl; [exact Hls|]. intros l Hl. simpl.
    change ("."%char :: l) with (["."%char] ++ l). constructor; [|done].
    by constructor.
Qed.

Lemma string_of_list_ascii_app a b :
  String.string_of_list_ascii (a ++ b)
  = (String.string_of_list_ascii a ++ String.string_of_list_ascii b)%string.
Proof. induction a as [|c a IH]; simpl; [done|by rewrite IH]. Qed.

Lemma split_on_no_sep sep l :
  Forall (λ c, c ≠ sep) l →
  split_on sep (String.string_of_list_ascii l) = [String.string_of_list_ascii l].
Proof.
  induction 1 as [|c l Hc _ IH]; simpl; [done|].
  rewrite decide_False by done. by rewrite IH.
Qed.

Lemma split_on_app_sep sep l rest :
  Forall (λ c, c ≠ sep) l →
  split_on sep (String.string_of_list_ascii l ++ String sep rest)
  = String.string_of_list_ascii l :: split_on sep rest.
Proof.
  induction 1 as [|c l Hc _ IH]; simpl.
  - by rewrite decide_True.
  - rewrite decide_False by done. by rewrite IH.
Qed.

Lemma split_on_join sep l0 ls :
  Forall (Forall (λ c, c ≠ sep)) (l0 :: ls) →
  split_on sep (String.string_of_list_ascii (l0 ++ concat (cons sep <$> ls)))
  = String.string_of_list_ascii <$> (l0 :: ls).
Proof.
  revert l0. induction ls as [|l1 ls IH]; intros l0 Hall.
  - simpl. rewrite app_nil_r. apply split_on_no_sep. by apply Forall_cons in Hall as [? _].
  - apply Forall_cons in Hall as [H0 Hall]. simpl.
    rewrite string_of_list_ascii_app. simpl.
    rewrite split_on_app_sep by done. f_equal. by apply IH.
Qed.

Lemma join_split_on sep (s : string) :
  ∃ l0 ls,
    String.list_ascii_of_string s = l0 ++ concat (cons sep <$> ls)
    ∧ split_on sep s = String.string_of_list_ascii <$> (l0 :: ls).
Proof.
  induction s as [|a s (l0 & ls & Hs & Hsplit)].
  - by exists [], [].
  - simpl. destruct (decide (a = sep)) as [->|Hne].
    + exists [], (l0 :: ls). simpl. split; [by rewrite Hs|by rewrite Hsplit].
    + exists (a :: l0), ls. rewrite Hsplit. simpl. split; [by rewrite Hs|done].
Qed.

Lemma label_no_dot t : lang label t → Forall (λ c, c ≠ "."%char) t.
Proof.
  intros Hl. apply lang_label in Hl as (_ & _ & Hall & _).
  eapply Forall_impl; [exact Hall|]. intros c Hc ->. vm_compute in Hc. done.
Qed.

(** X19: [validateDomain] accepts exactly the names of 1 to 253 characters whose
    dot-separated labels are all well formed: no empty label, no label over
    63 characters, only letters, digits and hyphens, and no hyphen at the
    start or the end of a label. *)
Theorem validateDomain_accepts_exactly d :
  validateDomain d = true
  ↔ (1 ≤ String.length d ∧ String.length d ≤ 253)
    ∧ Forall valid_label (split_on "."%char d).
Proof.
  unfold validateDomain, test_whole.
  rewrite !andb_true_iff, negb_true_iff, bool_decide_eq_false, bool_decide_eq_true,
    matches_lang, lang_domainRegex.
  assert (Hvalid : ∀ l, valid_label (String.string_of_list_ascii l) ↔ lang label l).
  { intros l. unfold valid_label. cbv zeta.
    rewrite String.list_ascii_of_string_of_list_ascii. symmetry. apply lang_label. }
  split.
  - intros [[Hne Hlen] (l0 & ls & Hs & Hall)]. split; [done|].
    rewrite <- (String.string_of_list_ascii_of_string d), Hs, split_on_join.
    + apply Forall_fmap. eapply Forall_impl; [exact Hall|]. intros l Hl. by apply Hvalid.
    + eapply Forall_impl; [exact Hall|]. apply label_no_dot.
  - intros [Hlen Hall]. split; [split; [|done]|].
    + intros ->. simpl in Hlen. lia.
    + destruct (join_split_on "."%char d) as (l0 & ls & Hs & Hsplit).
      exists l0, ls. split; [done|]. rewrite Hsplit in Hall.
      apply (Forall_fmap String.string_of_list_ascii valid_label (l0 :: ls)) in Hall.
      eapply Forall_impl; [exact Hall|].
      intros l Hl. by apply Hvalid.
Qed.

(** X20: [validateUsername] accepts exactly the names of 1 to 256 characters in
    which none of the six dangerous markers occurs, in whatever mix of
    upper and lower case. *)
Theorem validateUsername_accepts_exactly u :
  validateUsername u = true
  ↔ (1 ≤ String.length u ∧ String.length u ≤ 256)
    ∧ ∀ m, m ∈ dangerousPatterns → ¬ occurs_ci m u.
Proof.
  unfold validateUsername.
  rewrite !andb_true_iff, negb_true_iff, bool_decide_eq_false, bool_decide_eq_true,
    forallb_forall.
  split.
  - intros [[Hne Hlen] Hall]. split; [done|]. intros m Hm Hocc.
    apply test_lit_ci in Hocc. specialize (Hall m).
    rewrite Hocc in Hall. apply list_elem_of_In in Hm. by specialize (Hall Hm).
  - intros [Hlen Hall]. split; [split; [|done]|].
    + intros ->. simpl in Hlen. lia.
    + intros m Hm. apply list_elem_of_In in Hm. apply negb_true_iff.
      destruct (test _ u) eqn:Ht; [|done]. apply test_lit_ci in Ht. by destruct (Hall m Hm).
Qed.

End validator_facts.

(** ** Secure cache *)

Section secure_cache_more.
Import SecurityValidator SecureCache.
Context `{CachePlatform}.





(** X23: after [clearAll] nothing of the cache is left: both storage slots are
    empty, [hasSession] and [hasCredentials] are false, and both loaders
    return null for every identity and key.  The other keys of
    [localStorage] are not touched. *)
Theorem clearAll_leaves_nothing b rnd1 rnd2 now currentAddress currentIdToken masterKey rnd :
  let b' := clearAll b rnd1 rnd2 in
  localStorage b' !! SESSION_KEY = None
  ∧ sessionStorage b' !! CREDENTIALS_KEY = None
  ∧ hasSession b' now = false
  ∧ hasCredentials b' now = false
  ∧ (getSessionIfValid b' now currentAddress currentIdToken rnd).2 = None
  ∧ (getCredentials b' now masterKey rnd).2 = None
  ∧ (∀ k, k ≠ SESSION_KEY → localStorage b' !! k = localStorage b !! k).
Proof.
  intros b'.
  assert (Hs : localStorage b' !! SESSION_KEY = None).
  { unfold b', clearAll.
    destruct (clearCredentials_deletes (clearSession b rnd1) rnd2) as [_ ->].
    apply clearSession_deletes. }
  assert (Hc : sessionStorage b' !! CREDENTIALS_KEY = None).
  { unfold b', clearAll. apply clearCredentials_deletes. }
  split; [done|]. split; [done|].
  unfold hasSession, hasCredentials, getSessionIfValid, getCredentials.
  rewrite Hs, Hc. split; [done|]. split; [done|].
  split; [by destruct (negb _)|]. split; [done|].
  intros k Hk. unfold b', clearAll.
  destruct (clearCredentials_deletes (clearSession b rnd1) rnd2) as [_ ->].
  unfold clearSession. destruct (truthy_text _); simpl.
  - rewrite lookup_delete_ne by done. by rewrite lookup_insert_ne.
  - by rewrite lookup_delete_ne.
Qed.

(** X24: a credential list that [storeCredentials] has cached is handed back by
    [getCredentials] under the same master key for the next five minutes,
    unchanged and in order. *)
Theorem storeCredentials_then_getCredentials b now now' credentials masterKey draws rnd :
  masterKey ≠ EmptyString →
  forallb validateCredentialData credentials = true →
  credentials_round_trips now credentials masterKey draws →
  (now' ≤ now + CREDENTIALS_TTL)%Z →
  ∃ b',
    storeCredentials b now credentials masterKey draws = (b', Returns tt)
    ∧ getCredentials b' now' masterKey rnd = (b', Some credentials)
    ∧ hasCredentials b' now' = true
    ∧ localStorage b' = localStorage b.
Proof.
  intros Hmk Hvalid (Hne & Hparse & Hsalt & Hdec & Hps) Hle.
  unfold storeCredentials. rewrite decide_False by done. rewrite Hvalid.
  cbn [negb]. cbv zeta.
  eexists. split; [reflexivity|].
  unfold getCredentials, hasCredentials. cbn [sessionStorage].
  rewrite lookup_insert_eq. unfold truthy_text. rewrite decide_False by exact Hne.
  cbn [negb]. rewrite Hparse.
  cbn [StoredData.expiresAt StoredData.salt StoredData.data StoredData.iterations].
  rewrite (proj2 (Z.ltb_ge _ _)) by lia. rewrite Hsalt.
  unfold verify_credentials. cbn [StoredData.data]. rewrite Hdec, Hps.
  cbn [PersistedCredentials.integrity PersistedCredentials.without_integrity
       PersistedCredentials.credentials PersistedCredentials.timestamp
       PersistedCredentials.expiresAt PersistedCredentials.sessionId].
  rewrite !bool_decide_eq_true_2 by done. cbn [negb].
  split; [reflexivity|]. split; [|done]. apply Z.leb_le. lia.
Qed.

End secure_cache_more.

Section secure_cache_more_examples.
Import SecurityValidator SecureCache Sample SampleCache.



Lemma storeCredentials_then_getCredentials_witness :
  ∃ b',
    storeCredentials no_storage 1000 cached_accounts key32 draws = (b', Returns tt)
    ∧ getCredentials b' 2000 key32 "rnd" = (b', Some cached_accounts)
    ∧ hasCredentials b' 2000 = true
    ∧ localStorage b' = localStorage no_storage.
Proof.
  apply (storeCredentials_then_getCredentials (H0:=cache_platform)).
  - discriminate.
  - vm_compute. reflexivity.
  - repeat split; try (vm_compute; reflexivity). vm_compute. discriminate.
  - vm_compute. discriminate.
Defined.

End secure_cache_more_examples.

(** ** Rate limiter *)

Section rate_limiter_facts.
Import RateLimiter.

Lemma checkLimits_in_window rl key times c rt :
  attempts rl !! key = Some {| count := c; resetTime := rt |} →
  Forall (λ now, (now ≤ rt)%Z) times →
  (checkLimits rl key times).2
  = replicate (min (length times) (maxAttempts rl - c)) (Returns true)
    ++ replicate (length times - (maxAttempts rl - c)) Throws.
Proof.
  revert rl c. induction times as [|now times IH]; intros rl c Hrec Hall; [done|].
  apply Forall_cons in Hall as [Hnow Hall].
  cbn [checkLimits]. unfold checkLimit. rewrite Hrec. cbn [resetTime count].
  rewrite (proj2 (Z.ltb_ge _ _)) by done.
  destruct (bool_decide (maxAttempts rl ≤ c)) eqn:Hmax.
  - apply bool_decide_eq_true in Hmax.
    specialize (IH rl c Hrec Hall).
    destruct (checkLimits rl key times) as [rl' rs]. simpl in *. rewrite IH.
    replace (maxAttempts rl - c) with 0 by lia.
    rewrite Nat.min_0_r, !Nat.sub_0_r. done.
  - apply bool_decide_eq_false in Hmax.
    set (rl1 := with_attempts rl _).
    specialize (IH rl1 (S c)).
    destruct (checkLimits rl1 key times) as [rl' rs]. simpl in *. rewrite IH; [|by rewrite lookup_insert_eq|done].
    replace (maxAttempts rl - c) with (S (maxAttempts rl - S c)) by lia.
    simpl. done.
Qed.

(** X25: within one window the limiter lets through the first call and then
    calls up to [maxAttempts] in total, and rejects every later one: from a
    key without a record, of the calls made at [t0] and then at times up to
    [t0 + windowMs], exactly the first [max 1 maxAttempts] return [true] and
    all the others throw. *)
Theorem rate_limit_within_window rl key t0 times :
  attempts rl !! key = None →
  Forall (λ now, (now ≤ t0 + windowMs rl)%Z) times →
  (checkLimits rl key (t0 :: times)).2
  = replicate (min (S (length times)) (max 1 (maxAttempts rl))) (Returns true)
    ++ replicate (S (length times) - max 1 (maxAttempts rl)) Throws.
Proof.
  intros Hnone Hall. cbn [checkLimits]. unfold checkLimit. rewrite Hnone.
  set (rl1 := with_attempts rl _).
  pose proof (checkLimits_in_window rl1 key times 1 (t0 + windowMs rl)) as Hrest.
  destruct (checkLimits rl1 key times) as [rl' rs]. simpl in *.
  rewrite Hrest; [|by rewrite lookup_insert_eq|done].
  destruct (maxAttempts rl) as [|[|m]]; simpl.
  - by rewrite Nat.min_0_r, Nat.sub_0_r.
  - by rewrite Nat.min_0_r, Nat.sub_0_r.
  - done.
Qed.

Lemma rate_limit_within_window_witness :
  (checkLimits authRateLimiter "login" [1000; 2000; 3000; 4000; 301000]%Z).2
  = [Returns true; Returns true; Returns true; Throws; Throws].
Proof.
  apply (rate_limit_within_window authRateLimiter "login" 1000%Z
           [2000; 3000; 4000; 301000]%Z).
  - reflexivity.
  - repeat constructor; vm_compute; discriminate.
Defined.

(** X26: a call of [checkLimit] touches the record of its own key only, never
    the configuration, and a call that is rejected changes nothing at all:
    rejected attempts do not count and do not extend the window. *)
Theorem checkLimit_frame rl now key :
  let '(rl', r) := checkLimit rl now key in
  maxAttempts rl' = maxAttempts rl
  ∧ windowMs rl' = windowMs rl
  ∧ (∀ other, other ≠ key → attempts rl' !! other = attempts rl !! other)
  ∧ match r with
    | Throws => rl' = rl
    | Returns ok =>
      ok = true ∧ ∃ record, attempts rl' !! key = Some record ∧ 1 ≤ count record
    end.
Proof.
  unfold checkLimit. destruct (attempts rl !! key) as [record|] eqn:Hrec.
  - destruct (resetTime record <? now)%Z.
    + simpl. split; [done|]. split; [done|]. split.
      * intros other Hne. by rewrite lookup_insert_ne.
      * split; [done|]. eexists. rewrite lookup_insert_eq. split; [done|]. simpl. lia.
    + destruct (bool_decide (maxAttempts rl ≤ count record)) eqn:Hmax; [done|].
      simpl. split; [done|]. split; [done|]. split.
      * intros other Hne. by rewrite lookup_insert_ne.
      * split; [done|]. eexists. rewrite lookup_insert_eq. split; [done|]. simpl. lia.
  - simpl. split; [done|]. split; [done|]. split.
    + intros other Hne. by rewrite lookup_insert_ne.
    + split; [done|]. eexists. rewrite lookup_insert_eq. split; [done|]. simpl. lia.
Qed.

(** X27: [cleanup] is invisible to [checkLimit]: it removes exactly the records
    whose window is over, and a later call of [checkLimit], for any key,
    gives the same answer and leaves the same record for that key as it
    would have without the cleanup. *)
Theorem cleanup_is_invisible rl now now' key :
  (now ≤ now')%Z →
  (∀ k, attempts (cleanup rl now) !! k
        = match attempts rl !! k with
          | Some record => if (resetTime record <? now)%Z then None else Some record
          | None => None
          end)
  ∧ (checkLimit (cleanup rl now) now' key).2 = (checkLimit rl now' key).2
  ∧ attempts (checkLimit (cleanup rl now) now' key).1 !! key
    = attempts (checkLimit rl now' key).1 !! key.
Proof.
  intros Hle.
  assert (Hlook : ∀ k, attempts (cleanup rl now) !! k
                       = match attempts rl !! k with
                         | Some record =>
                           if (resetTime record <? now)%Z then None else Some record
                         | None => None
                         end).
  { intros k. unfold cleanup. simpl.
    destruct (attempts rl !! k) as [record|] eqn:Hk.
    - destruct (resetTime record <? now)%Z eqn:Hexp.
      + apply map_lookup_filter_None. right. intros x Hx. simpl.
        rewrite Hk in Hx. injection Hx as <-. apply Z.ltb_lt in Hexp. tauto.
      + apply map_lookup_filter_Some. split; [done|]. simpl.
        apply Z.ltb_ge in Hexp. lia.
    - apply map_lookup_filter_None. by left. }
  split; [exact Hlook|].
  unfold checkLimit. rewrite Hlook.
  destruct (attempts rl !! key) as [record|] eqn:Hk.
  - destruct (resetTime record <? now)%Z eqn:Hexp.
    + apply Z.ltb_lt in Hexp. rewrite (proj2 (Z.ltb_lt (resetTime record) now')) by lia.
      simpl. by rewrite !lookup_insert_eq.
    + destruct (resetTime record <? now')%Z.
      * simpl. by rewrite !lookup_insert_eq.
      * simpl. destruct (bool_decide _).
        -- simpl. by rewrite Hlook, Hk, Hexp.
        -- simpl. by rewrite !lookup_insert_eq.
  - simpl. by rewrite !lookup_insert_eq.
Qed.

Lemma cleanup_is_invisible_witness :
  (checkLimit (cleanup (checkLimits authRateLimiter "login" [1000; 2000; 3000]%Z).1 5000)
     6000 "login").2
  = (checkLimit (checkLimits authRateLimiter "login" [1000; 2000; 3000]%Z).1 6000 "login").2.
Proof.
  apply (cleanup_is_invisible
           (checkLimits authRateLimiter "login" [1000; 2000; 3000]%Z).1 5000 6000 "login").
  vm_compute. discriminate.
Defined.

End rate_limiter_facts.

(** ** API server *)

Section api_server_facts.
Import ApiServer.

Lemma status_step_eq now installed lastPing id t :
  status_step now (installed, lastPing) (id, t)
  = if (now - t <? EXTENSION_HEARTBEAT_TIMEOUT)%Z
    then (true, if no_ping lastPing || (default 0 lastPing <? t)%Z
                then Some t else lastPing)
    else (installed, lastPing).
Proof. reflexivity. Qed.

Lemma status_fold now hb installed lastPing :
  ((foldl (status_step now) (installed, lastPing) hb).1 = true
   ↔ installed = true
     ∨ ∃ id t, (id, t) ∈ hb ∧ (now - t < EXTENSION_HEARTBEAT_TIMEOUT)%Z)
  ∧ (∀ t, (foldl (status_step now) (installed, lastPing) hb).2 = Some t →
       lastPing = Some t
       ∨ ∃ id, (id, t) ∈ hb ∧ (now - t < EXTENSION_HEARTBEAT_TIMEOUT)%Z).
Proof.
  revert installed lastPing. induction hb as [|[id t] hb IH]; intros installed lastPing.
  - simpl. split; [|eauto]. split; [by left|]. intros [?|(? & ? & Hin & _)]; [done|].
    by apply elem_of_nil in Hin.
  - cbn [foldl]. rewrite status_step_eq.
    destruct (now - t <? EXTENSION_HEARTBEAT_TIMEOUT)%Z eqn:Hage.
    + apply Z.ltb_lt in Hage.
      destruct (IH true (if no_ping lastPing || (default 0 lastPing <? t)%Z
                         then Some t else lastPing)) as [Hi Hl].
      split.
      * split.
        -- intros _. right. exists id, t. split; [apply list_elem_of_here|done].
        -- intros _. apply Hi. by left.
      * intros t' Ht'. destruct (Hl t' Ht') as [Hprev|(id' & Hin & Hrecent)].
        -- destruct (no_ping lastPing || _).
           ++ injection Hprev as <-. right. exists id. split; [apply list_elem_of_here|done].
           ++ by left.
        -- right. exists id'. split; [by apply list_elem_of_further|done].
    + apply Z.ltb_ge in Hage.
      destruct (IH installed lastPing) as [Hi Hl]. split.
      * rewrite Hi. split.
        -- intros [?|(id' & t' & Hin & Hrecent)]; [by left|right].
           exists id', t'. split; [by apply list_elem_of_further|done].
        -- intros [?|(id' & t' & Hin & Hrecent)]; [by left|right].
           apply elem_of_cons in Hin as [[= -> ->]|Hin]; [lia|]. eauto.
      * intros t' Ht'. destruct (Hl t' Ht') as [?|(id' & Hin & Hrecent)]; [by left|].
        right. exists id'. split; [by apply list_elem_of_further|done].
Qed.

(** X28: [GET /api/extension-status] reports the extension as installed exactly
    when some extension has pinged less than 30 seconds ago, and a
    [lastPing] it reports is the time of such a ping. *)
Theorem extension_status_spec hb now :
  ((extension_status hb now).1 = true
   ↔ ∃ id t, (id, t) ∈ hb ∧ (now - t < EXTENSION_HEARTBEAT_TIMEOUT)%Z)
  ∧ ∀ t, (extension_status hb now).2 = Some t →
         ∃ id, (id, t) ∈ hb ∧ (now - t < EXTENSION_HEARTBEAT_TIMEOUT)%Z.
Proof.
  unfold extension_status.
  destruct (status_fold now hb false None) as [Hi Hl].
  destruct (foldl (status_step now) (false, None) hb) as [installed lastPing].
  simpl in *. split.
  - rewrite Hi. split; [intros [?|?]; done|by right].
  - intros t Ht. destruct (no_ping lastPing); [done|].
    destruct (Hl t Ht) as [?|?]; done.
Qed.

(** X29: after a ping, the status stays "installed" for the next 30 seconds,
    whatever else is in the heartbeat map and whichever id was sent. *)
Theorem ping_then_installed hb extensionId now now' :
  (now' - now < EXTENSION_HEARTBEAT_TIMEOUT)%Z →
  (extension_status (extension_ping hb extensionId now) now').1 = true.
Proof.
  intros Hrecent. unfold extension_status.
  match goal with |- context [foldl (status_step now') (false, None) ?l] =>
    destruct (status_fold now' l false None) as [Hi _];
    destruct (foldl (status_step now') (false, None) l) as [installed lastPing]
  end.
  cbn [fst] in *. apply Hi. right.
  unfold extension_ping.
  set (id := match extensionId with
             | Some i => if decide (i = EmptyString) then "default"%string else i
             | None => "default"%string
             end).
  exists id, now. split; [|done].
  apply list_elem_of_filter. split; [|apply elem_of_map_set].
  simpl. unfold EXTENSION_HEARTBEAT_TIMEOUT. lia.
Qed.

Lemma ping_then_installed_witness :
  (extension_status (extension_ping [("old"%string, 5%Z)] (Some "ext-1"%string) 100000) 129999).1
  = true.
Proof. apply ping_then_installed. vm_compute. reflexivity. Defined.

Lemma startsWith_app s p suffix :
  startsWith s p = true → startsWith (s ++ suffix) p = true.
Proof.
  revert s. induction p as [|a p IH]; intros s; [done|].
  destruct s as [|b s]; [done|]. simpl.
  rewrite !andb_true_iff. intros [? ?]. split; [done|by apply IH].
Qed.

Lemma startsWith_refl s : startsWith s s = true.
Proof.
  induction s as [|a s IH]; [done|]. simpl.
  by rewrite bool_decide_eq_true_2, IH.
Qed.

Lemma toLowerCase_app s t :
  toLowerCase (s ++ t) = (toLowerCase s ++ toLowerCase t)%string.
Proof. induction s as [|a s IH]; simpl; [done|by rewrite IH]. Qed.

(** X30: in production the CORS check compares beginnings only: once an origin
    is let through, every origin that continues it with more characters is
    let through as well. *)
Theorem cors_allows_every_continuation allowedOrigins origin suffix :
  origin ≠ EmptyString →
  cors_allows false allowedOrigins (Some origin) = true →
  cors_allows false allowedOrigins (Some (origin ++ suffix)%string) = true.
Proof.
  intros Hne. unfold cors_allows.
  rewrite decide_False by done.
  rewrite decide_False by (by destruct origin).
  destruct (startsWith origin "http://localhost:") eqn:H1.
  { by rewrite (startsWith_app _ _ suffix H1). }
  destruct (startsWith origin "http://127.0.0.1:") eqn:H2.
  { rewrite (startsWith_app _ _ suffix H2), !orb_true_r. done. }
  cbn [orb].
  destruct (startsWith (origin ++ suffix) "http://localhost:"
            || startsWith (origin ++ suffix) "http://127.0.0.1:"); [done|].
  rewrite toLowerCase_app.
  destruct (startsWith (toLowerCase origin) "chrome-extension://") eqn:H3.
  { by rewrite (startsWith_app _ _ _ H3). }
  destruct (startsWith (toLowerCase origin) "moz-extension://") eqn:H4.
  { rewrite (startsWith_app _ _ _ H4), !orb_true_r. done. }
  cbn [orb].
  destruct (startsWith (toLowerCase origin ++ toLowerCase suffix) "chrome-extension://"
            || startsWith (toLowerCase origin ++ toLowerCase suffix) "moz-extension://");
    [done|].
  destruct (bool_decide (0 < length allowedOrigins)); [|done]. cbn [andb].
  destruct (existsb _ allowedOrigins) eqn:Hex; [|done]. intros _.
  apply existsb_exists in Hex as (allowed & Hin & Hallowed).
  assert (Hpre : startsWith origin allowed = true).
  { apply orb_true_iff in Hallowed as [Heq|?]; [|done].
    apply bool_decide_eq_true in Heq as ->. apply startsWith_refl. }
  assert (Hex' : existsb (λ allowed, bool_decide ((origin ++ suffix)%string = allowed)
                                     || startsWith (origin ++ suffix) allowed)
                   allowedOrigins = true).
  { apply existsb_exists. exists allowed. split; [done|].
    by rewrite (startsWith_app _ _ suffix Hpre), orb_true_r. }
  by rewrite Hex'.
Qed.

Lemma cors_allows_every_continuation_witness :
  cors_allows false ["https://app.example.com"]
    (Some ("https://app.example.com" ++ ".other.org")%string) = true.
Proof.
  apply cors_allows_every_continuation; [discriminate|vm_compute; reflexivity].
Defined.

End api_server_facts.
